(** * A shallow embedding of the [_] utility library

    The library under study is the lodash-like object [_] of the
    "JavaScript utility library" exercise: string, number, array and object
    helpers, the function combinators [debounce], [curry] and [memoize],
    and [deepClone].

    JavaScript values are embedded as a tree type [value]; numbers are
    IEEE 754 binary64 values in the Standard Library's [spec_float]
    representation; strings are sequences of code units, restricted here
    to the range 0..255 that [ascii] offers.  Code that may throw or loop
    returns an [outcome].  What the host (the JavaScript engine) computes
    and the library merely calls is written out after ECMA-262 where a
    property depends on it ([Math.max], [Math.min], [typeof], the [in]
    operator, property assignment, [JSON.stringify], timers under a
    virtual clock) and is a section variable otherwise ([Number::toString],
    [Date.prototype.toISOString], the operators [+] and [/], the identity
    of objects, the members of the built-in prototypes other than
    [Object.prototype]).

    The first part is the embedding, each definition under the source text
    it renders; the second part states and proves the properties. *)

From Stdlib Require Import ZArith List Bool Lia Ascii String.
From Stdlib Require Import Floats.SpecFloat Numbers.DecimalString.
From stdpp Require Import gmap strings list.

Import ListNotations.
Local Open Scope string_scope.
Local Open Scope list_scope.

(** ** Numbers *)

Module Num.

Definition number := spec_float.

Definition NaN : number := S754_nan.
Definition pos_zero : number := S754_zero false.
Definition neg_zero : number := S754_zero true.
Definition pos_inf : number := S754_infinity false.
Definition neg_inf : number := S754_infinity true.
(** The double 1, in the canonical form of binary64 (a mantissa of 53
    bits): [2^52 * 2^-52]. *)
Definition one : number := S754_finite false 4503599627370496 (-52).

Definition is_NaN (x : number) : bool :=
  match x with S754_nan => true | _ => false end.

Definition is_zero (x : number) : bool :=
  match x with S754_zero _ => true | _ => false end.

Definition is_pos_zero (x : number) : bool :=
  match x with S754_zero false => true | _ => false end.

Definition is_neg_zero (x : number) : bool :=
  match x with S754_zero true => true | _ => false end.

Definition is_finite (x : number) : bool :=
  match x with S754_zero _ | S754_finite _ _ _ => true | _ => false end.

(** The relational operators [<], [<=] and [===] on numbers: every
    comparison with NaN is false, and the two zeros are equal. *)
Definition lt (x y : number) : bool := SFltb x y.
Definition le (x y : number) : bool := SFleb x y.
Definition strict_eq (x y : number) : bool := SFeqb x y.

(** [Math.max(...values)], ECMA-262 21.3.2.24: start from -Infinity, return
    NaN as soon as an argument is NaN, prefer +0 over -0, and otherwise
    keep the larger number. *)
Definition max_step (highest x : number) : number :=
  if is_NaN highest || is_NaN x then NaN
  else if is_pos_zero x && is_neg_zero highest then pos_zero
  else if lt highest x then x
  else highest.

Definition Math_max (values : list number) : number :=
  fold_left max_step values neg_inf.

(** [Math.min(...values)], ECMA-262 21.3.2.25, the mirror image. *)
Definition min_step (lowest x : number) : number :=
  if is_NaN lowest || is_NaN x then NaN
  else if is_neg_zero x && is_pos_zero lowest then neg_zero
  else if lt x lowest then x
  else lowest.

Definition Math_min (values : list number) : number :=
  fold_left min_step values pos_inf.

(** [_.clamp]:
<<
  _.clamp = function(num, lower, upper) {
      return Math.min(Math.max(num, lower), upper);
  };
>> *)
Definition clamp (num lower upper : number) : number :=
  Math_min [Math_max [num; lower]; upper].

End Num.

(** ** Values *)

(** A JavaScript value as a tree.  A function is opaque and identified by
    a name; a [Date] carries its time value; an array is its list of
    elements (no holes, no further own properties); a plain object is the
    list of its own enumerable string-keyed data properties in property
    order, and its prototype is [Object.prototype].  Symbols, BigInts and
    object identity are outside the model. *)
#[warnings="-register-all"]
Inductive value : Type :=
| VUndefined
| VNull
| VBool (b : bool)
| VNum (n : Num.number)
| VStr (s : string)
| VFun (name : string)
| VDate (t : Num.number)
| VArr (items : list value)
| VObj (props : list (string * value)).

(** Induction that reaches the elements of an array and the property
    values of an object. *)
Section value_induction.
Variable P : value -> Prop.
Hypothesis Hundefined : P VUndefined.
Hypothesis Hnull : P VNull.
Hypothesis Hbool : forall b, P (VBool b).
Hypothesis Hnum : forall n, P (VNum n).
Hypothesis Hstr : forall s, P (VStr s).
Hypothesis Hfun : forall f, P (VFun f).
Hypothesis Hdate : forall t, P (VDate t).
Hypothesis Harr : forall items, Forall P items -> P (VArr items).
Hypothesis Hobj : forall props, Forall (fun kv => P (snd kv)) props -> P (VObj props).

Fixpoint value_ind' (v : value) : P v :=
  match v with
  | VUndefined => Hundefined
  | VNull => Hnull
  | VBool b => Hbool b
  | VNum n => Hnum n
  | VStr s => Hstr s
  | VFun f => Hfun f
  | VDate t => Hdate t
  | VArr items =>
      Harr items
        ((fix all (l : list value) : Forall P l :=
            match l with
            | [] => List.Forall_nil P
            | x :: l' => List.Forall_cons P x l' (value_ind' x) (all l')
            end) items)
  | VObj props =>
      Hobj props
        ((fix all (l : list (string * value)) : Forall (fun kv => P (snd kv)) l :=
            match l with
            | [] => List.Forall_nil _
            | kv :: l' => List.Forall_cons _ kv l' (value_ind' (snd kv)) (all l')
            end) props)
  end.
End value_induction.

(** The [typeof] operator. *)
Definition typeof (v : value) : string :=
  match v with
  | VUndefined => "undefined"
  | VNull => "object"
  | VBool _ => "boolean"
  | VNum _ => "number"
  | VStr _ => "string"
  | VFun _ => "function"
  | VDate _ | VArr _ | VObj _ => "object"
  end.

Definition is_null (v : value) : bool :=
  match v with VNull => true | _ => false end.

Definition Array_isArray (v : value) : bool :=
  match v with VArr _ => true | _ => false end.

Definition instanceof_Date (v : value) : bool :=
  match v with VDate _ => true | _ => false end.

(** [ToBoolean], which [!str] applies. *)
Definition ToBoolean (v : value) : bool :=
  match v with
  | VUndefined | VNull => false
  | VBool b => b
  | VNum n => negb (Num.is_zero n || Num.is_NaN n)
  | VStr s => negb (s =? "")
  | VFun _ | VDate _ | VArr _ | VObj _ => true
  end.

(** ** Outcomes *)

(** What running a piece of code yields: a value, an exception, or no
    answer within the fuel a loop was given. *)
Inductive error : Type := TypeError | RangeError.

Inductive outcome (A : Type) : Type :=
| Normal (a : A)
| Throw (e : error)
| OutOfFuel.
Arguments Normal {A} a.
Arguments Throw {A} e.
Arguments OutOfFuel {A}.

#[global] Instance outcome_ret : MRet outcome := fun A a => Normal a.

#[global] Instance outcome_bind : MBind outcome := fun A B k m =>
  match m with
  | Normal a => k a
  | Throw e => Throw e
  | OutOfFuel => OutOfFuel
  end.

Fixpoint foldM {A B : Type} (f : A -> B -> outcome A) (l : list B) (acc : A) : outcome A :=
  match l with
  | [] => Normal acc
  | x :: l' => acc' ← f acc x; foldM f l' acc'
  end.

(** The receiver of a [String.prototype] method: when the receiver is not
    a string the method is not there ([undefined.toLowerCase], or calling
    the [undefined] that [(5).toLowerCase] is), and a TypeError is
    thrown. *)
Definition this_string (v : value) : outcome string :=
  match v with
  | VStr s => Normal s
  | _ => Throw TypeError
  end.

(** The receiver of an [Array.prototype] method, likewise. *)
Definition this_array (v : value) : outcome (list value) :=
  match v with
  | VArr items => Normal items
  | _ => Throw TypeError
  end.

(** ** Strings *)

(** A string is its sequence of code units; [ascii] offers the code units
    0..255, which JavaScript reads as the characters U+0000..U+00FF. *)
Definition chars (s : string) : list ascii := list_ascii_of_string s.
Definition of_chars (l : list ascii) : string := string_of_list_ascii l.

Definition code (c : ascii) : nat := nat_of_ascii c.

Definition in_range (lo hi : nat) (c : ascii) : bool :=
  (lo <=? code c)%nat && (code c <=? hi)%nat.

Definition is_lower_az (c : ascii) : bool := in_range 97 122 c.
Definition is_upper_AZ (c : ascii) : bool := in_range 65 90 c.
Definition is_digit (c : ascii) : bool := in_range 48 57 c.

(** [String.prototype.toLowerCase] on one code unit of the range: A-Z and
    the capital letters U+00C0..U+00DE (the multiplication sign U+00D7 is
    no letter) move up by 32. *)
Definition char_toLowerCase (c : ascii) : ascii :=
  if is_upper_AZ c || (in_range 192 222 c && negb (code c =? 215)%nat)
  then ascii_of_nat (code c + 32)
  else c.

(** [String.prototype.toUpperCase] on one code unit: a-z and U+00E0..U+00FE
    (the division sign U+00F7 is no letter) move down by 32.  The upper
    case of U+00B5, U+00DF and U+00FF lies outside the range modelled;
    those three are left as they are. *)
Definition char_toUpperCase (c : ascii) : ascii :=
  if is_lower_az c || (in_range 224 254 c && negb (code c =? 247)%nat)
  then ascii_of_nat (code c - 32)
  else c.

Definition toLowerCase (s : string) : string := of_chars (map char_toLowerCase (chars s)).
Definition toUpperCase (s : string) : string := of_chars (map char_toUpperCase (chars s)).

(** [String.prototype.slice(start, end)]: a negative index counts from the
    end, and both are clamped to the string. *)
Definition relative_index (len k : Z) : Z :=
  if (k <? 0)%Z then Z.max (len + k) 0 else Z.min k len.

Definition String_slice (s : string) (start_ end_ : Z) : string :=
  let len := Z.of_nat (String.length s) in
  let from := relative_index len start_ in
  let to := relative_index len end_ in
  String.substring (Z.to_nat from) (Z.to_nat (to - from)) s.

(** [str.replace(/[^a-z0-9]/g, '')]: every code unit outside a-z and 0-9
    is dropped. *)
Definition is_az09 (c : ascii) : bool := is_lower_az c || is_digit c.

Definition replace_non_az09 (s : string) : string :=
  of_chars (List.filter is_az09 (chars s)).

(** [str.replace(/([a-z])([A-Z])/g, '$1-$2')]: left to right, each lower
    case letter followed by an upper case letter gets a hyphen in between;
    the search resumes after the pair. *)
Fixpoint hyphenate_camel (l : list ascii) : list ascii :=
  match l with
  | [] => []
  | a :: l' =>
      match l' with
      | b :: rest =>
          if is_lower_az a && is_upper_AZ b
          then a :: "-"%char :: b :: hyphenate_camel rest
          else a :: hyphenate_camel l'
      | [] => [a]
      end
  end.

(** The code units of the range that [\s] matches: TAB, LF, VT, FF, CR,
    SP and NBSP. *)
Definition is_whitespace (c : ascii) : bool :=
  in_range 9 13 c || (code c =? 32)%nat || (code c =? 160)%nat.

(** [str.replace(/\s+/g, '-')]: each maximal run of white space becomes
    one hyphen. *)
Fixpoint hyphenate_spaces (in_run : bool) (l : list ascii) : list ascii :=
  match l with
  | [] => []
  | c :: l' =>
      if is_whitespace c
      then (if in_run then [] else ["-"%char]) ++ hyphenate_spaces true l'
      else c :: hyphenate_spaces false l'
  end.

(** [str.split('')], [Array.prototype.reverse] and [join('')] on the
    array of one-unit strings. *)
Definition split_units (s : string) : list string :=
  map (fun c => String c EmptyString) (chars s).

Definition join_units (l : list string) : string :=
  fold_right String.append EmptyString l.

(** *** The string helpers *)

(**
<<
  _.capitalize = function(str) {
      if (typeof str !== 'string' || !str) return '';
      return str[0].toUpperCase() + str.slice(1).toLowerCase();
  };
>> *)
Definition capitalize (str : value) : outcome value :=
  if negb (typeof str =? "string") || negb (ToBoolean str) then Normal (VStr "")
  else
    s ← this_string str;
    let first := String.substring 0 1 s in
    Normal (VStr (toUpperCase first +:+ toLowerCase (String_slice s 1 (Z.of_nat (String.length s))))).

(**
<<
  _.truncate = function(str, length = 30, suffix = '...') {
      if (typeof str !== 'string') return '';
      if (str.length <= length) return str;
      return str.slice(0, length - suffix.length) + suffix;
  };
>>
    [length] and [suffix] are taken in their documented types, an integer
    and a string; [None] is an omitted argument. *)
Definition truncate (str : value) (length : option Z) (suffix : option string) : outcome value :=
  let length := default 30%Z length in
  let suffix := default "..." suffix in
  if negb (typeof str =? "string") then Normal (VStr "")
  else
    s ← this_string str;
    if (Z.of_nat (String.length s) <=? length)%Z then Normal str
    else Normal (VStr (String_slice s 0 (length - Z.of_nat (String.length suffix)) +:+ suffix)).

(**
<<
  _.kebabCase = function(str) {
      if (typeof str !== 'string') return '';
      return str
          .replace(/([a-z])([A-Z])/g, '$1-$2')
          .replace(/\s+/g, '-')
          .toLowerCase();
  };
>> *)
Definition kebabCase (str : value) : outcome value :=
  if negb (typeof str =? "string") then Normal (VStr "")
  else
    s ← this_string str;
    Normal (VStr (toLowerCase (of_chars (hyphenate_spaces false (hyphenate_camel (chars s)))))).

(**
<<
  _.isPalindrome = function(str) {
      if (typeof str !== 'string') return false;
      str = str.toLowerCase().replace(/[^a-z0-9]/g, '');
      return str === str.split('').reverse().join('');
  };
>> *)
Definition isPalindrome (str : value) : outcome value :=
  if negb (typeof str =? "string") then Normal (VBool false)
  else
    s ← this_string str;
    let str := replace_non_az09 (toLowerCase s) in
    Normal (VBool (str =? join_units (rev (split_units str)))).

(** ** Arrays and objects *)

(** [Array.prototype.slice(start, end)] for indices that are not
    negative. *)
Definition Array_slice (items : list value) (start_ end_ : nat) : list value :=
  firstn (end_ - start_) (skipn start_ items).

(** The number that an array length is. *)
Definition number_of_nat (n : nat) : Num.number :=
  binary_normalize 53 1024 (Z.of_nat n) 0 false.

(** A number literal of the tests. *)
Definition num (n : nat) : value := VNum (number_of_nat n).

(** The property key of an array index: its decimal numeral. *)
Definition index_key (i : nat) : string :=
  NilEmpty.string_of_uint (Nat.to_uint i).

(** The own enumerable string-keyed properties of a value, in property
    order: the properties of a plain object, the elements of an array and
    the code units of a string under their indices. *)
Definition own_enumerable (v : value) : list (string * value) :=
  match v with
  | VObj props => props
  | VArr items => imap (fun i x => (index_key i, x)) items
  | VStr s => imap (fun i c => (index_key i, VStr (String c EmptyString))) (chars s)
  | _ => []
  end.

Fixpoint lookup_prop (key : string) (props : list (string * value)) : option value :=
  match props with
  | [] => None
  | (k, v) :: props' => if k =? key then Some v else lookup_prop key props'
  end.

Definition has_key (key : string) (props : list (string * value)) : bool :=
  existsb (fun kv => fst kv =? key) props.

(** The properties of [Object.prototype], which every object inherits
    (ECMA-262 20.1.3 and B.2.2); none of them is enumerable.  Reading
    [__proto__] yields the prototype, an object without enumerable
    properties. *)
Definition Object_prototype : list (string * value) :=
  [ ("constructor", VFun "Object");
    ("hasOwnProperty", VFun "Object.prototype.hasOwnProperty");
    ("isPrototypeOf", VFun "Object.prototype.isPrototypeOf");
    ("propertyIsEnumerable", VFun "Object.prototype.propertyIsEnumerable");
    ("toLocaleString", VFun "Object.prototype.toLocaleString");
    ("toString", VFun "Object.prototype.toString");
    ("valueOf", VFun "Object.prototype.valueOf");
    ("__proto__", VObj []);
    ("__defineGetter__", VFun "Object.prototype.__defineGetter__");
    ("__defineSetter__", VFun "Object.prototype.__defineSetter__");
    ("__lookupGetter__", VFun "Object.prototype.__lookupGetter__");
    ("__lookupSetter__", VFun "Object.prototype.__lookupSetter__") ].

(** [result[key] = v] on a plain object: [[Set]] finds the accessor
    [__proto__] of [Object.prototype] and calls its setter, so that no own
    property of that name is created; any other key is updated in place
    or added at the end.

    Two things that the assignment does are outside this account, and
    the properties that depend on them say so in a hypothesis.  The
    setter of [__proto__] ignores a value that is neither an object nor
    [null] (ECMA-262 B.2.2.1.2) and otherwise makes it the prototype of
    the object; a [value] has no prototype of its own, so the assignment
    of an object, a function or [null] to [__proto__] is not described.
    And an object lists its array-index keys (["0"], ["7"], ...) in
    ascending order before all other keys; the properties of a [VObj]
    are taken in the order the object lists them, and a key that is
    added is taken to be listed last, as a key that is no array index
    is. *)
Fixpoint update_prop (props : list (string * value)) (key : string) (v : value) : list (string * value) :=
  match props with
  | [] => [(key, v)]
  | (k, w) :: props' =>
      if k =? key then (k, v) :: props' else (k, w) :: update_prop props' key v
  end.

Definition obj_set (props : list (string * value)) (key : string) (v : value) : list (string * value) :=
  if key =? "__proto__" then props else update_prop props key v.

(** [Object.keys] and [Object.values]: a TypeError for [undefined] and
    [null], the own enumerable properties of anything else. *)
Definition Object_keys (v : value) : outcome (list string) :=
  match v with
  | VUndefined | VNull => Throw TypeError
  | _ => Normal (map fst (own_enumerable v))
  end.

Definition Object_values (v : value) : outcome (list value) :=
  match v with
  | VUndefined | VNull => Throw TypeError
  | _ => Normal (map snd (own_enumerable v))
  end.

Section Helpers.

(** What the host computes: the operators [+] and [/] on operands that
    have a primitive value ([+] throws a TypeError on an object whose
    [valueOf] and [toString] give none; such operands are outside
    [js_add], and nothing is stated about [mean] on them); whether two
    object values are one and the same object; and
    what an array, a [Date], a function or a wrapped primitive has besides
    its own enumerable properties ([length], the members of
    [Array.prototype], [Date.prototype] and the like, whose list depends
    on the edition of the language). *)
Variable js_add : value -> value -> value.
Variable js_div : value -> value -> value.
Variable same_reference : value -> value -> bool.
Variable exotic_properties : value -> list (string * value).

(** [SameValueZero], the equality of [Array.prototype.includes] and of
    [Set]: NaN equals NaN, the two zeros are equal, objects are compared
    by identity. *)
Definition SameValueZero (x y : value) : bool :=
  match x, y with
  | VUndefined, VUndefined => true
  | VNull, VNull => true
  | VBool a, VBool b => Bool.eqb a b
  | VNum a, VNum b => (Num.is_NaN a && Num.is_NaN b) || Num.strict_eq a b
  | VStr a, VStr b => a =? b
  | (VFun _ | VDate _ | VArr _ | VObj _), (VFun _ | VDate _ | VArr _ | VObj _) =>
      same_reference x y
  | _, _ => false
  end.

Definition Array_includes (items : list value) (x : value) : bool :=
  existsb (fun item => SameValueZero item x) items.

(** All that a value answers [in] and property reads with. *)
Definition all_properties (v : value) : list (string * value) :=
  match v with
  | VObj props => props ++ Object_prototype
  | _ => own_enumerable v ++ exotic_properties v ++ Object_prototype
  end.

(** [key in obj]: a TypeError when [obj] is not an object; otherwise own
    and inherited properties count alike. *)
Definition HasProperty (obj : value) (key : string) : outcome bool :=
  match obj with
  | VObj _ | VArr _ | VDate _ | VFun _ => Normal (has_key key (all_properties obj))
  | _ => Throw TypeError
  end.

(** [obj[key]]: a TypeError for [undefined] and [null]; otherwise the
    property found first on the way up the prototype chain, or
    [undefined]. *)
Definition Get (obj : value) (key : string) : outcome value :=
  match obj with
  | VUndefined | VNull => Throw TypeError
  | _ => Normal (default VUndefined (lookup_prop key (all_properties obj)))
  end.

(** *** The number helper with a guard *)

(**
<<
  _.mean = function(nums) {
      if (!Array.isArray(nums) || nums.length === 0) return NaN;
      return nums.reduce((sum, n) => sum + n, 0) / nums.length;
  };
>> *)
Definition mean (nums : value) : outcome value :=
  if negb (Array_isArray nums) then Normal (VNum Num.NaN)
  else
    items ← this_array nums;
    if (length items =? 0)%nat then Normal (VNum Num.NaN)
    else Normal (js_div (fold_left (fun sum n => js_add sum n) items (VNum Num.pos_zero))
                        (VNum (number_of_nat (length items)))).

(** *** The array helpers *)

(**
<<
  _.last = function(arr) {
      if (!Array.isArray(arr) || arr.length === 0) return undefined;
      return arr[arr.length - 1];
  };
>> *)
Definition last (arr : value) : outcome value :=
  if negb (Array_isArray arr) then Normal VUndefined
  else
    items ← this_array arr;
    if (length items =? 0)%nat then Normal VUndefined
    else Normal (nth (length items - 1) items VUndefined).

(**
<<
  _.includes = function(arr, value) {
      if (!Array.isArray(arr)) return false;
      return arr.includes(value);
  };
>> *)
Definition includes (arr : value) (x : value) : outcome value :=
  if negb (Array_isArray arr) then Normal (VBool false)
  else
    items ← this_array arr;
    Normal (VBool (Array_includes items x)).

(**
<<
  _.without = function(arr, ...values) {
      if (!Array.isArray(arr)) return [];
      return arr.filter(item => !values.includes(item));
  };
>> *)
Definition without (arr : value) (values : list value) : outcome value :=
  if negb (Array_isArray arr) then Normal (VArr [])
  else
    items ← this_array arr;
    Normal (VArr (List.filter (fun item => negb (Array_includes values item)) items)).

(**
<<
  _.chunk = function(arr, size = 1) {
      if (!Array.isArray(arr)) return [];
      const result = [];
      for (let i = 0; i < arr.length; i += size) {
          result.push(arr.slice(i, i + size));
      }
      return result;
  };
>>
    [size] is taken as a natural number ([None]: omitted).  The loop runs
    on fuel: with [size = 0] the source never leaves it. *)
Fixpoint chunk_loop (fuel : nat) (items : list value) (size i : nat) (result : list value) : outcome (list value) :=
  match fuel with
  | 0 => OutOfFuel
  | S fuel' =>
      if (i <? length items)%nat
      then chunk_loop fuel' items size (i + size)
                      (result ++ [VArr (Array_slice items i (i + size))])
      else Normal result
  end.

Definition chunk (fuel : nat) (arr : value) (size : option nat) : outcome value :=
  let size := default 1 size in
  if negb (Array_isArray arr) then Normal (VArr [])
  else
    items ← this_array arr;
    result ← chunk_loop fuel items size 0 [];
    Normal (VArr result).

(**
<<
  _.unique = function(arr) {
      if (!Array.isArray(arr)) return [];
      return [...new Set(arr)];
  };
>>
    A [Set] keeps its elements in insertion order and takes in an element
    only when none of its elements is the same value; [-0] is stored as
    [+0] (ECMA-262 24.2.4.1, [Set.prototype.add]). *)
Definition Set_value (x : value) : value :=
  match x with
  | VNum n => if Num.is_neg_zero n then VNum Num.pos_zero else x
  | _ => x
  end.

Definition Set_add (set : list value) (x : value) : list value :=
  let x := Set_value x in
  if Array_includes set x then set else set ++ [x].

Definition unique (arr : value) : outcome value :=
  if negb (Array_isArray arr) then Normal (VArr [])
  else
    items ← this_array arr;
    Normal (VArr (fold_left Set_add items [])).

(** *** The object helpers *)

(**
<<
  _.keys = function(obj) {
      if (obj === null || typeof obj !== 'object') return [];
      return Object.keys(obj);
  };
>> *)
Definition keys (obj : value) : outcome value :=
  if is_null obj || negb (typeof obj =? "object") then Normal (VArr [])
  else
    ks ← Object_keys obj;
    Normal (VArr (map VStr ks)).

(**
<<
  _.values = function(obj) {
      if (obj === null || typeof obj !== 'object') return [];
      return Object.values(obj);
  };
>> *)
Definition values (obj : value) : outcome value :=
  if is_null obj || negb (typeof obj =? "object") then Normal (VArr [])
  else
    vs ← Object_values obj;
    Normal (VArr vs).

(**
<<
  _.pick = function(obj, ...keys) {
      if (obj === null || typeof obj !== 'object') return {};
      return keys.reduce((result, key) => {
          if (key in obj) {
              result[key] = obj[key];
          }
          return result;
      }, {});
  };
>>
    The keys are taken as strings. *)
Definition pick (obj : value) (keys : list string) : outcome value :=
  if is_null obj || negb (typeof obj =? "object") then Normal (VObj [])
  else
    result ← foldM (fun result key =>
                      present ← HasProperty obj key;
                      if present : bool
                      then v ← Get obj key; Normal (obj_set result key v)
                      else Normal result)
                   keys [];
    Normal (VObj result).

(**
<<
  _.omit = function(obj, ...keys) {
      if (obj === null || typeof obj !== 'object') return {};
      return Object.keys(obj).reduce((result, key) => {
          if (!keys.includes(key)) {
              result[key] = obj[key];
          }
          return result;
      }, {});
  };
>> *)
Definition omit (obj : value) (keys : list string) : outcome value :=
  if is_null obj || negb (typeof obj =? "object") then Normal (VObj [])
  else
    own ← Object_keys obj;
    result ← foldM (fun result key =>
                      if negb (existsb (String.eqb key) keys)
                      then v ← Get obj key; Normal (obj_set result key v)
                      else Normal result)
                   own [];
    Normal (VObj result).

End Helpers.

(** ** Deep clone *)

(**
<<
  _.deepClone = function(obj) {
      if (obj === null || typeof obj !== 'object') return obj;
      if (obj instanceof Date) return new Date(obj);
      if (Array.isArray(obj)) {
          return obj.map(item => _.deepClone(item));
      }
      const cloned = {};
      for (const key in obj) {
          if (Object.hasOwnProperty.call(obj, key)) {
              cloned[key] = _.deepClone(obj[key]);
          }
      }
      return cloned;
  };
>>
    The [for]-[in] loop visits the own enumerable properties in property
    order and then the enumerable properties inherited, of which
    [Object.prototype] has none. *)
Fixpoint deepClone (obj : value) : value :=
  match obj with
  | VUndefined | VNull | VBool _ | VNum _ | VStr _ | VFun _ => obj
  | VDate t => VDate t
  | VArr items => VArr (map deepClone items)
  | VObj props =>
      VObj (fold_left (fun cloned kv => obj_set cloned (fst kv) (deepClone (snd kv)))
                      props [])
  end.


(** ** [JSON.stringify] *)

Definition double_quote : ascii := ascii_of_nat 34.
Definition backslash : ascii := ascii_of_nat 92.

Definition hex_digit (n : nat) : ascii :=
  nth n (chars "0123456789abcdef") "0"%char.

(** [QuoteJSONString], ECMA-262 25.5.2.3: the quotation mark, the
    backslash and the control characters are escaped, the latter by their
    short form where JSON has one and as [\u00XX] otherwise. *)
Definition escape_unit (c : ascii) : list ascii :=
  match code c with
  | 8 => [backslash; "b"%char]
  | 9 => [backslash; "t"%char]
  | 10 => [backslash; "n"%char]
  | 12 => [backslash; "f"%char]
  | 13 => [backslash; "r"%char]
  | 34 => [backslash; double_quote]
  | 92 => [backslash; backslash]
  | n =>
      if (n <? 32)%nat
      then [backslash; "u"%char; "0"%char; "0"%char; hex_digit (n / 16); hex_digit (n mod 16)]
      else [c]
  end.

Definition QuoteJSONString (s : string) : list ascii :=
  double_quote :: flat_map escape_unit (chars s) ++ [double_quote].

Fixpoint join_with (sep : list ascii) (parts : list (list ascii)) : list ascii :=
  match parts with
  | [] => []
  | [p] => p
  | p :: parts' => p ++ sep ++ join_with sep parts'
  end.

Section JSON.

(** [Number::toString] (the shortest numeral that reads back as the
    number) and [Date.prototype.toISOString] are the host's. *)
Variable Number_toString : Num.number -> string.
Variable Date_toISOString : Num.number -> string.

(** [SerializeJSONProperty], ECMA-262 25.5.2.2, without replacer and
    indentation; [None] is [undefined].  [undefined] and functions have no
    JSON text: in an array they are written [null], in an object their
    property is left out.  A number that is not finite is written [null].
    A [Date] is written as the string its [toJSON] gives, an invalid one
    as [null].  A [toJSON] method that a plain object may carry is not
    called: functions are opaque, and such a property is left out like
    any property whose value is a function. *)
Fixpoint SerializeJSONProperty (v : value) : option (list ascii) :=
  match v with
  | VUndefined | VFun _ => None
  | VNull => Some (chars "null")
  | VBool true => Some (chars "true")
  | VBool false => Some (chars "false")
  | VNum n =>
      Some (if Num.is_finite n then chars (Number_toString n) else chars "null")
  | VStr s => Some (QuoteJSONString s)
  | VDate t =>
      Some (if Num.is_finite t then QuoteJSONString (Date_toISOString t) else chars "null")
  | VArr items =>
      Some (chars "[" ++
            join_with (chars ",")
              (map (fun x => default (chars "null") (SerializeJSONProperty x)) items) ++
            chars "]")
  | VObj props =>
      Some (chars "{" ++
            join_with (chars ",")
              (flat_map (fun kv =>
                           match SerializeJSONProperty (snd kv) with
                           | Some text => [QuoteJSONString (fst kv) ++ chars ":" ++ text]
                           | None => []
                           end) props) ++
            chars "}")
  end.

Definition JSON_stringify (v : value) : option string :=
  of_chars <$> SerializeJSONProperty v.

(** The text of an array, which [JSON.stringify] always has. *)
Definition SerializeJSONArray (items : list value) : list ascii :=
  chars "[" ++
  join_with (chars ",")
    (map (fun x => default (chars "null") (SerializeJSONProperty x)) items) ++
  chars "]".

(** ** [memoize] *)

(**
<<
  _.memoize = function(fn) {
      const cache = new Map();
      return function(...args) {
          const key = JSON.stringify(args);
          if (cache.has(key)) {
              return cache.get(key);
          }
          const result = fn.apply(this, args);
          cache.set(key, result);
          return result;
      };
  };
>>
    The state of a wrapper is its [cache]; [calls], the argument lists [fn]
    was invoked with so far, is the call counter that the properties speak
    of.  [fn] is a pure function of its argument list. *)
Definition cache_key (args : list value) : string :=
  of_chars (SerializeJSONArray args).

Record memo : Type := {
  cache : gmap string value;
  calls : list (list value)
}.

Definition memo_new : memo := {| cache := ∅; calls := [] |}.

Definition memoized (fn : list value -> value) (st : memo) (args : list value) : value * memo :=
  let key := cache_key args in
  match cache st !! key with
  | Some cached => (cached, st)
  | None =>
      let result := fn args in
      (result, {| cache := <[key := result]> (cache st); calls := calls st ++ [args] |})
  end.

(** A sequence of calls of one wrapper: the values returned, in order,
    and the state left. *)
Fixpoint memo_run (fn : list value -> value) (st : memo) (trace : list (list value)) : list value * memo :=
  match trace with
  | [] => ([], st)
  | args :: trace' =>
      let (r, st') := memoized fn st args in
      let (rs, st'') := memo_run fn st' trace' in
      (r :: rs, st'')
  end.

End JSON.

(** ** [curry] *)

(** A function with its declared number of parameters, [fn.length]. *)
Record js_function : Type := {
  fn_length : nat;
  fn_apply : list value -> value
}.

(**
<<
  _.curry = function(fn) {
      const arity = fn.length;
      return function curried(...args) {
          if (args.length >= arity) {
              return fn.apply(this, args);
          } else {
              return function(...moreArgs) {
                  return curried.apply(this, args.concat(moreArgs));
              };
          }
      };
  };
>>
    What a call returns is either the result of [fn] or a function that
    holds the arguments gathered so far. *)
Inductive curried : Type :=
| Result (v : value)
| Waiting (args : list value).

Definition curried_call (fn : js_function) (args : list value) : curried :=
  if (fn_length fn <=? length args)%nat then Result (fn_apply fn args) else Waiting args.

(** [curry(fn)] is [curried] itself, which waits with no argument
    gathered. *)
Definition curry (fn : js_function) : curried := Waiting [].

(** Calling what a call returned.  A call on the result of [fn] is no
    call of a function of [curry]: [None]. *)
Definition call (fn : js_function) (f : curried) (moreArgs : list value) : option curried :=
  match f with
  | Waiting args => Some (curried_call fn (args ++ moreArgs))
  | Result _ => None
  end.

Fixpoint call_chain (fn : js_function) (f : curried) (groups : list (list value)) : option curried :=
  match groups with
  | [] => Some f
  | g :: groups' => f' ← call fn f g; call_chain fn f' groups'
  end.

(** ** [debounce] *)

(** Timers under a virtual clock that counts milliseconds.  A timer set
    at [now] with delay [wait] is due at [now + wait] and fires, in the
    order of the due times, once the clock has reached that time.  This
    is what the host does with a delay from 1 to [2^31 - 1]; a delay
    outside that range it replaces by 1, which is left out here. *)
Record timer : Type := {
  timer_id : nat;
  timer_due : Z;
  timer_args : list value
}.

Record event_loop : Type := {
  now : Z;
  next_id : nat;
  timers : list timer;
  invoked : list (Z * list value)
}.

Definition event_loop_at (start : Z) : event_loop :=
  {| now := start; next_id := 1; timers := []; invoked := [] |}.

Fixpoint insert_timer (tm : timer) (l : list timer) : list timer :=
  match l with
  | [] => [tm]
  | x :: l' =>
      if (timer_due x <=? timer_due tm)%Z then x :: insert_timer tm l' else tm :: l
  end.

(** [setTimeout(() => func.apply(this, args), wait)] *)
Definition setTimeout (w : event_loop) (wait : Z) (args : list value) : nat * event_loop :=
  let id := next_id w in
  (id, {| now := now w;
          next_id := S id;
          timers := insert_timer {| timer_id := id; timer_due := now w + wait; timer_args := args |}
                                 (timers w);
          invoked := invoked w |}).

(** [clearTimeout(timeout)]; [None] is [undefined], which clears
    nothing, as does the handle of a timer that has fired. *)
Definition clearTimeout (w : event_loop) (timeout : option nat) : event_loop :=
  match timeout with
  | None => w
  | Some id =>
      {| now := now w;
         next_id := next_id w;
         timers := List.filter (fun tm => negb (timer_id tm =? id)%nat) (timers w);
         invoked := invoked w |}
  end.

(** The clock reaches [t]: the timers due by then fire, each invoking
    [func] with its arguments, which [invoked] records with the time. *)
Definition run_until (t : Z) (w : event_loop) : event_loop :=
  {| now := t;
     next_id := next_id w;
     timers := List.filter (fun tm => negb (timer_due tm <=? t)%Z) (timers w);
     invoked := invoked w ++
                map (fun tm => (timer_due tm, timer_args tm))
                    (List.filter (fun tm => (timer_due tm <=? t)%Z) (timers w)) |}.

(** No further call is made: every pending timer fires. *)
Definition run_to_completion (w : event_loop) : event_loop :=
  {| now := fold_left Z.max (map timer_due (timers w)) (now w);
     next_id := next_id w;
     timers := [];
     invoked := invoked w ++ map (fun tm => (timer_due tm, timer_args tm)) (timers w) |}.

(**
<<
  _.debounce = function(func, wait) {
      let timeout;
      return function(...args) {
          clearTimeout(timeout);
          timeout = setTimeout(() => func.apply(this, args), wait);
      };
  };
>>
    The state of a wrapper is the variable [timeout]; a call made at time
    [t] with [args] first lets the clock reach [t]: it is a call in a
    turn of its own, before which the host has run the timers due by
    [t].  Calls that share a turn are told apart under [host_event]
    below. *)
Definition debounced (wait : Z) (st : event_loop * option nat) (call : Z * list value) : event_loop * option nat :=
  let w := run_until (fst call) (fst st) in
  let w := clearTimeout w (snd st) in
  let (id, w) := setTimeout w wait (snd call) in
  (w, Some id).

Definition debounce_run (wait start : Z) (calls : list (Z * list value)) : event_loop :=
  run_to_completion (fst (fold_left (debounced wait) calls (event_loop_at start, None))).

(** ** [throttle] *)

(**
<<
  _.throttle = function(func, wait) {
      let lastCall = 0;
      return function(...args) {
          const now = Date.now();
          if (now - lastCall >= wait) {
              lastCall = now;
              return func.apply(this, args);
          }
      };
  };
>>
    The state of a wrapper is the variable [lastCall]; [executed], the calls
    that reached [func], is the log that the properties speak of.  A call
    is the value of [Date.now()], in milliseconds, with the arguments; a
    call that is dropped returns [undefined]. *)
Record throttle_state : Type := {
  lastCall : Z;
  executed : list (Z * list value)
}.

Definition throttle_new : throttle_state := {| lastCall := 0; executed := [] |}.

Definition throttled (func : list value -> value) (wait : Z)
    (st : throttle_state) (call : Z * list value) : value * throttle_state :=
  let now := fst call in
  if (wait <=? now - lastCall st)%Z
  then (func (snd call), {| lastCall := now; executed := executed st ++ [call] |})
  else (VUndefined, st).

Fixpoint throttle_run (func : list value -> value) (wait : Z)
    (st : throttle_state) (calls : list (Z * list value)) : list value * throttle_state :=
  match calls with
  | [] => ([], st)
  | call :: calls' =>
      let (r, st') := throttled func wait st call in
      let (rs, st'') := throttle_run func wait st' calls' in
      (r :: rs, st'')
  end.

(** ** [flatten] *)

(** A depth: an integer or [Infinity]. *)
Inductive depth : Type :=
| Levels (d : Z)
| Infinity.

Definition depth_positive (d : depth) : bool :=
  match d with
  | Levels z => (0 <? z)%Z
  | Infinity => true
  end.

Definition depth_pred (d : depth) : depth :=
  match d with
  | Levels z => Levels (z - 1)
  | Infinity => Infinity
  end.

(**
<<
  _.flatten = function(arr, depth = 1) {
      if (!Array.isArray(arr)) return [];

      return depth > 0
          ? arr.reduce((acc, val) =>
              acc.concat(Array.isArray(val) ? _.flatten(val, depth - 1) : val), [])
          : arr.slice();
  };
>>
    [flatten_elements] gives the elements of the array returned;
    [concat] appends the elements of an array and appends anything else as
    it is. *)
Fixpoint flatten_elements (arr : value) (d : depth) {struct arr} : list value :=
  match arr with
  | VArr items =>
      if depth_positive d
      then fold_left
             (fun acc val =>
                acc ++ match val with
                       | VArr _ => flatten_elements val (depth_pred d)
                       | _ => [val]
                       end)
             items []
      else items
  | _ => []
  end.

Definition flatten (arr : value) (d : option depth) : outcome value :=
  Normal (VArr (flatten_elements arr (default (Levels 1) d))).

(** ** [times] *)

(**
<<
  _.times = function(n, iteratee) {
      const results = Array(n);
      for (let i = 0; i < n; i++) {
          results[i] = iteratee(i);
      }
      return results;
  };
>>
    [n] is taken as a natural number and [iteratee] as a pure function of
    the index.  [Array(n)] is an array of [n] holes, [None] here, when
    [n] is a length an array can have, at most [2^32 - 1]; for a larger
    [n] it throws a RangeError (ECMA-262 23.1.1.1).  The loop runs on
    fuel. *)
Fixpoint times_loop (fuel : nat) (n : nat) (iteratee : nat -> value) (i : nat)
    (results : list (option value)) : outcome (list (option value)) :=
  match fuel with
  | 0 => OutOfFuel
  | S fuel' =>
      if (i <? n)%nat
      then times_loop fuel' n iteratee (S i) (<[i := Some (iteratee i)]> results)
      else Normal results
  end.

Definition Array_of_length (n : nat) : outcome (list (option value)) :=
  if (Z.of_nat n <? 4294967296)%Z then Normal (replicate n None) else Throw RangeError.

Definition times (fuel : nat) (n : nat) (iteratee : nat -> value) : outcome (list (option value)) :=
  results ← Array_of_length n;
  times_loop fuel n iteratee 0 results.

(** ** [debounce] and the turns of the event loop *)

(** What happens to a debounced wrapper, in order: the program calls it
    while the clock reads [t], or the host runs its timers while the
    clock reads [t].  The host runs no timer while the program runs, so
    that between two calls of one turn nothing fires, however far apart
    the clock readings are; [debounced] above is a call that the timers
    due by then have run before ([debounced_is_timers_then_call]). *)
Inductive host_event : Type :=
| CallWrapper (t : Z) (args : list value)
| RunTimers (t : Z).

Definition clock_reads (t : Z) (w : event_loop) : event_loop :=
  {| now := t; next_id := next_id w; timers := timers w; invoked := invoked w |}.

(** The body of the wrapper, [clearTimeout(timeout)] and
    [timeout = setTimeout(...)], and nothing else. *)
Definition debounced_call (wait : Z) (st : event_loop * option nat)
    (t : Z) (args : list value) : event_loop * option nat :=
  let w := clock_reads t (fst st) in
  let w := clearTimeout w (snd st) in
  let (id, w) := setTimeout w wait args in
  (w, Some id).

Definition debounce_step (wait : Z) (st : event_loop * option nat)
    (ev : host_event) : event_loop * option nat :=
  match ev with
  | CallWrapper t args => debounced_call wait st t args
  | RunTimers t => (run_until t (fst st), snd st)
  end.

Definition debounce_events (wait start : Z) (evs : list host_event) : event_loop * option nat :=
  fold_left (debounce_step wait) evs (event_loop_at start, None).

(** ** The vocabulary of the properties *)

(** The defaults C3 lists: the empty string, the empty array, the empty
    object, NaN and [false]. *)
Definition benign_default (v : value) : Prop :=
  v = VStr "" \/ v = VArr [] \/ v = VObj [] \/ v = VNum Num.NaN \/ v = VBool false.

Definition not_a_string (v : value) : Prop := typeof v <> "string".
Definition not_an_array (v : value) : Prop := Array_isArray v = false.
Definition not_an_object (v : value) : Prop := v = VNull \/ typeof v <> "object".



Definition string_reverse (s : string) : string := of_chars (rev (chars s)).

(** What C4 says of the chunks: each holds between one and [size]
    elements, and each but the last holds exactly [size]. *)
Definition chunks_ok (size : nat) (chunks : list (list value)) : Prop :=
  forall (i : nat) (c : list value),
    chunks !! i = Some c ->
    (1 <= length c <= size)%nat /\ (S i < length chunks -> length c = size)%nat.

(** The own keys of an object: no key twice. *)
Definition distinct_keys (props : list (string * value)) : Prop :=
  NoDup (map fst props).

(** An object none of whose own properties is named [__proto__]. *)
Definition no_proto_key (props : list (string * value)) : Prop :=
  ~ In "__proto__" (map fst props).

(** The values C10 ranges over, less the objects that own a property
    named [__proto__]: primitives, functions, dates, arrays of such
    values and objects of such values. *)
#[warnings="-register-all"]
Inductive plain_data : value -> Prop :=
| plain_undefined : plain_data VUndefined
| plain_null : plain_data VNull
| plain_bool b : plain_data (VBool b)
| plain_num n : plain_data (VNum n)
| plain_str s : plain_data (VStr s)
| plain_fun f : plain_data (VFun f)
| plain_date t : plain_data (VDate t)
| plain_arr items : Forall plain_data items -> plain_data (VArr items)
| plain_obj props :
    distinct_keys props -> no_proto_key props ->
    Forall (fun kv => plain_data (snd kv)) props ->
    plain_data (VObj props).


(** The characters of a numeral: digits, signs, the point and the
    exponent mark. *)
Definition is_numeral_char (c : ascii) : bool :=
  is_digit c || (code c =? 43)%nat || (code c =? 45)%nat || (code c =? 46)%nat
  || (code c =? 101)%nat.

(** A set [P] of numbers whose numerals tell them apart: each is finite,
    its numeral is not empty and made of numeral characters only, and no
    two have the same numeral.  (Of the finite numbers, the host's
    numerals confuse only [0] and [-0].) *)
Definition numerals_faithful (Number_toString : Num.number -> string)
    (P : Num.number -> Prop) : Prop :=
  (forall n, P n ->
     Num.is_finite n = true /\
     chars (Number_toString n) <> [] /\
     Forall (fun c => is_numeral_char c = true) (chars (Number_toString n))) /\
  (forall n m, P n -> P m -> Number_toString n = Number_toString m -> n = m).

(** The values whose JSON text determines them: [null], booleans,
    strings, numbers of [P], arrays and objects of such values. *)
#[warnings="-register-all"]
Inductive json_exact (P : Num.number -> Prop) : value -> Prop :=
| exact_null : json_exact P VNull
| exact_bool b : json_exact P (VBool b)
| exact_num n : P n -> json_exact P (VNum n)
| exact_str s : json_exact P (VStr s)
| exact_arr items : Forall (json_exact P) items -> json_exact P (VArr items)
| exact_obj props :
    Forall (fun kv => json_exact P (snd kv)) props -> json_exact P (VObj props).

(** *** Reading JSON text back, for the proofs *)

Definition hex_value (c : ascii) : nat :=
  if is_digit c then code c - 48 else code c - 87.

(** The code unit that the text starts with, unescaped, and the text
    after it; [None] at the closing quotation mark. *)
Definition parse_unit (l : list ascii) : option (ascii * list ascii) :=
  match l with
  | [] => None
  | c :: rest =>
      if (code c =? 34)%nat then None
      else if (code c =? 92)%nat then
        match rest with
        | [] => None
        | e :: rest' =>
            match code e with
            | 98 => Some (ascii_of_nat 8, rest')
            | 116 => Some (ascii_of_nat 9, rest')
            | 110 => Some (ascii_of_nat 10, rest')
            | 102 => Some (ascii_of_nat 12, rest')
            | 114 => Some (ascii_of_nat 13, rest')
            | 34 => Some (ascii_of_nat 34, rest')
            | 92 => Some (ascii_of_nat 92, rest')
            | 117 =>
                match rest' with
                | _ :: _ :: h :: l :: rest'' =>
                    Some (ascii_of_nat (16 * hex_value h + hex_value l), rest'')
                | _ => None
                end
            | _ => None
            end
        end
      else Some (c, rest)
  end.

(** Text that cannot continue a numeral. *)
Definition stops (r : list ascii) : Prop :=
  match r with
  | [] => True
  | c :: _ => is_numeral_char c = false
  end.

(** What follows the first part of a joined list, up to and including the
    closing bracket. *)
Fixpoint more_parts (close : ascii) (parts : list (list ascii)) : list ascii :=
  match parts with
  | [] => [close]
  | p :: parts' => ","%char :: p ++ more_parts close parts'
  end.


(** Times that follow one another at a distance of [wait] or more, the
    first at least [wait] after [t]. *)
Fixpoint spaced (wait t : Z) (log : list (Z * list value)) : Prop :=
  match log with
  | [] => True
  | c :: log' => (wait <= fst c - t)%Z /\ spaced wait (fst c) log'
  end.

(** A list in which no element is the same value as an element before it,
    [seen] counting as before it. *)
Fixpoint no_repeat_from (same_reference : value -> value -> bool)
    (seen l : list value) : Prop :=
  match l with
  | [] => True
  | x :: l' =>
      Array_includes same_reference seen x = false /\
      no_repeat_from same_reference (seen ++ [x]) l'
  end.

Definition no_repeat (same_reference : value -> value -> bool) (l : list value) : Prop :=
  no_repeat_from same_reference [] l.

(** The elements of a nest of arrays that are no arrays themselves, from
    left to right. *)
Fixpoint leaves (v : value) : list value :=
  match v with
  | VArr items => flat_map leaves items
  | _ => [v]
  end.


(** The code units whose upper case is again one code unit of the range
    modelled: all but U+00B5 (whose upper case is U+039C), U+00DF (upper
    case SS) and U+00FF (upper case U+0178). *)
Definition upper_case_in_range (c : ascii) : bool :=
  negb ((code c =? 181)%nat || (code c =? 223)%nat || (code c =? 255)%nat).

Definition first_unit_upper_in_range (s : string) : Prop :=
  match s with
  | String c _ => upper_case_in_range c = true
  | EmptyString => True
  end.

(** The characters of the string [kebabCase] returns for a string. *)
Definition kebab_chars (l : list ascii) : list ascii :=
  map char_toLowerCase (hyphenate_spaces false (hyphenate_camel l)).

(** The values whose JSON text is computed without a call into the
    program: no object in them has a [toJSON] method.  (For any other
    value [JSON.stringify] writes what that method returns.) *)
#[warnings="-register-all"]
Inductive no_toJSON : value -> Prop :=
| no_toJSON_undefined : no_toJSON VUndefined
| no_toJSON_null : no_toJSON VNull
| no_toJSON_bool b : no_toJSON (VBool b)
| no_toJSON_num n : no_toJSON (VNum n)
| no_toJSON_str s : no_toJSON (VStr s)
| no_toJSON_fun f : no_toJSON (VFun f)
| no_toJSON_date t : no_toJSON (VDate t)
| no_toJSON_arr items : Forall no_toJSON items -> no_toJSON (VArr items)
| no_toJSON_obj props :
    (forall f, lookup_prop "toJSON" props <> Some (VFun f)) ->
    Forall (fun kv => no_toJSON (snd kv)) props ->
    no_toJSON (VObj props).

(** The values that the setter of [__proto__] ignores: all but objects,
    functions and [null]. *)
Definition ignored_as_prototype (v : value) : bool :=
  match v with
  | VUndefined | VBool _ | VNum _ | VStr _ => true
  | _ => false
  end.

(** A value in which, at any depth, a key named [__proto__] holds a value
    that its setter ignores. *)
#[warnings="-register-all"]
Inductive proto_keys_inert : value -> Prop :=
| inert_undefined : proto_keys_inert VUndefined
| inert_null : proto_keys_inert VNull
| inert_bool b : proto_keys_inert (VBool b)
| inert_num n : proto_keys_inert (VNum n)
| inert_str s : proto_keys_inert (VStr s)
| inert_fun f : proto_keys_inert (VFun f)
| inert_date t : proto_keys_inert (VDate t)
| inert_arr items : Forall proto_keys_inert items -> proto_keys_inert (VArr items)
| inert_obj props :
    Forall (fun kv => proto_keys_inert (snd kv) /\
                      (fst kv = "__proto__" -> ignored_as_prototype (snd kv) = true)) props ->
    proto_keys_inert (VObj props).

(** A stretch of calls of a debounced wrapper between which the host runs
    no timer (the calls of one turn of the event loop, say), and the
    clock reading at which it runs its timers after the stretch. *)
Record turn : Type := {
  earlier : list (Z * list value);
  final : Z * list value;
  timers_run : Z
}.

Definition events_of_turn (tn : turn) : list host_event :=
  map (fun c => CallWrapper (fst c) (snd c)) (earlier tn ++ [final tn])
  ++ [RunTimers (timers_run tn)].

(** * Properties *)

(** ** The tests the source runs *)

(** The calls of the exercise's own test section whose arguments lie in the
    model, with the results its comments give. *)

Example capitalize_hello_world :
  capitalize (VStr "hello world") = Normal (VStr "Hello world").
Proof. reflexivity. Qed.

Example kebabCase_helloWorld :
  kebabCase (VStr "helloWorld") = Normal (VStr "hello-world").
Proof. reflexivity. Qed.

Example isPalindrome_Panama :
  isPalindrome (VStr "A man, a plan, a canal: Panama") = Normal (VBool true).
Proof. reflexivity. Qed.

Example clamp_15_10_20 :
  Num.clamp (number_of_nat 15) (number_of_nat 10) (number_of_nat 20) = number_of_nat 15.
Proof. reflexivity. Qed.

Example clamp_5_10_20 :
  Num.clamp (number_of_nat 5) (number_of_nat 10) (number_of_nat 20) = number_of_nat 10.
Proof. reflexivity. Qed.

Example last_of_five :
  last (VArr [num 1; num 2; num 3; num 4; num 5]) = Normal (num 5).
Proof. reflexivity. Qed.

Example includes_two (same_reference : value -> value -> bool) :
  includes same_reference (VArr [num 1; num 2; num 3]) (num 2) = Normal (VBool true).
Proof. reflexivity. Qed.

Example without_one_two (same_reference : value -> value -> bool) :
  without same_reference (VArr [num 1; num 2; num 3; num 1; num 2]) [num 1; num 2]
  = Normal (VArr [num 3]).
Proof. reflexivity. Qed.

Example chunk_five_by_two :
  chunk 6 (VArr [num 1; num 2; num 3; num 4; num 5]) (Some 2%nat)
  = Normal (VArr [VArr [num 1; num 2]; VArr [num 3; num 4]; VArr [num 5]]).
Proof. reflexivity. Qed.

Example unique_of_five (same_reference : value -> value -> bool) :
  unique same_reference (VArr [num 1; num 2; num 3; num 1; num 2])
  = Normal (VArr [num 1; num 2; num 3]).
Proof. reflexivity. Qed.

Example keys_a_b_c :
  keys (VObj [("a", num 1); ("b", num 2); ("c", num 3)])
  = Normal (VArr [VStr "a"; VStr "b"; VStr "c"]).
Proof. reflexivity. Qed.

Example values_a_b_c :
  values (VObj [("a", num 1); ("b", num 2); ("c", num 3)])
  = Normal (VArr [num 1; num 2; num 3]).
Proof. reflexivity. Qed.

Example pick_a_c (exotic_properties : value -> list (string * value)) :
  pick exotic_properties (VObj [("a", num 1); ("b", num 2); ("c", num 3)]) ["a"; "c"]
  = Normal (VObj [("a", num 1); ("c", num 3)]).
Proof. reflexivity. Qed.

Example omit_b (exotic_properties : value -> list (string * value)) :
  omit exotic_properties (VObj [("a", num 1); ("b", num 2); ("c", num 3)]) ["b"]
  = Normal (VObj [("a", num 1); ("c", num 3)]).
Proof. reflexivity. Qed.

(** [curriedAdd(2)(3)], with [add] left abstract. *)
Example curry_add_2_3 (add : list value -> value) :
  let fn := {| fn_length := 2; fn_apply := add |} in
  call_chain fn (curry fn) [[num 2]; [num 3]] = Some (Result (add [num 2; num 3])).
Proof. reflexivity. Qed.

Example deepClone_original :
  let original :=
    VObj [("a", num 1);
          ("b", VObj [("c", num 2);
                      ("d", VArr [num 3; num 4; VObj [("e", num 5)]])])] in
  deepClone original = original.
Proof. reflexivity. Qed.

(** A key of mixed arguments: [undefined] in an array is written [null],
    a function-valued property is left out, a backslash is escaped. *)
Example cache_key_of_mixed_arguments (Number_toString Date_toISOString : Num.number -> string) :
  cache_key Number_toString Date_toISOString
            [VNull; VArr [VBool true; VUndefined]; VObj [("a", VStr "b\c"); ("f", VFun "g")]]
  = of_chars (chars "[null,[true,null],{" ++ [double_quote] ++ chars "a" ++ [double_quote]
              ++ chars ":" ++ [double_quote] ++ chars "b\\c" ++ [double_quote] ++ chars "}]").
Proof. reflexivity. Qed.

Example flatten_default_depth :
  flatten (VArr [num 1; VArr [num 2; VArr [num 3; VArr [num 4]]; num 5]]) None
  = Normal (VArr [num 1; num 2; VArr [num 3; VArr [num 4]]; num 5]).
Proof. reflexivity. Qed.

Example flatten_deep :
  flatten (VArr [num 1; VArr [num 2; VArr [num 3; VArr [num 4]]; num 5]]) (Some Infinity)
  = Normal (VArr [num 1; num 2; num 3; num 4; num 5]).
Proof. reflexivity. Qed.

(** ** Memoization *)

Lemma Forall2_In_l {A B : Type} (P : A -> B -> Prop) (l : list A) (k : list B) (x : A) :
  Forall2 P l k -> In x l -> exists y, In y k /\ P x y.
Proof.
  induction 1 as [|x' y' l k Hxy _ IH]; intros Hin; [easy|].
  destruct Hin as [->|Hin].
  - exists y'. split; [now left | assumption].
  - destruct (IH Hin) as (y & Hy & Hp). exists y. split; [now right | assumption].
Qed.

Section Memoize.

Variable Number_toString : Num.number -> string.
Variable Date_toISOString : Num.number -> string.
Variable fn : list value -> value.

Local Abbreviation key := (cache_key Number_toString Date_toISOString).
Local Abbreviation wrapper := (memoized Number_toString Date_toISOString fn).
Local Abbreviation run := (memo_run Number_toString Date_toISOString fn).

(** The cache holds exactly the results of the invocations made so far,
    under their keys, and no two invocations had the same key. *)
Definition memo_inv (st : memo) : Prop :=
  NoDup (map key (calls st)) /\
  forall (k : string) (r : value),
    cache st !! k = Some r <-> exists c, In c (calls st) /\ key c = k /\ r = fn c.

Lemma memo_inv_new : memo_inv memo_new.
Proof.
  split; [constructor|]. intros k r. cbn. rewrite lookup_empty.
  split; [discriminate | now intros (c & [] & _)].
Qed.

Lemma memoized_inv (st : memo) (args : list value) :
  memo_inv st ->
  memo_inv (snd (wrapper st args)) /\
  (exists c, In c (calls (snd (wrapper st args))) /\ key c = key args /\
             fst (wrapper st args) = fn c) /\
  (forall c, In c (calls (snd (wrapper st args))) -> In c (calls st) \/ c = args) /\
  (forall c, In c (calls st) -> In c (calls (snd (wrapper st args)))).
Proof.
  intros [Hnd Hcache]. unfold memoized.
  destruct (cache st !! key args) as [cached|] eqn:Hlook; cbn [fst snd].
  - (* a hit: nothing changes *)
    split; [now split|]. split; [now apply Hcache|]. split; auto.
  - (* a miss: fn is invoked and its result stored *)
    unfold memo_inv. cbn [calls cache]. split; [split|split; [|split]].
    + rewrite map_app. cbn [map]. apply NoDup_app. split; [assumption|]. split.
      * intros k Hk [<-|[]]%list_elem_of_In.
        apply list_elem_of_In, in_map_iff in Hk as (c & Hkc & Hc).
        assert (Hsome : cache st !! key args = Some (fn c))
          by (apply Hcache; now exists c).
        congruence.
      * apply NoDup_singleton.
    + intros k r. destruct (decide (key args = k)) as [<-|Hne].
      * rewrite lookup_insert_eq. split.
        -- intros [= <-]. exists args. rewrite in_app_iff. cbn. auto.
        -- intros (c & Hin & Hkc & ->). f_equal.
           apply in_app_iff in Hin as [Hin|[<-|[]]]; [|reflexivity].
           assert (Hsome : cache st !! key args = Some (fn c))
             by (apply Hcache; now exists c).
           congruence.
      * rewrite lookup_insert_ne by assumption. rewrite Hcache. split.
        -- intros (c & Hin & Hkc & ->). exists c. rewrite in_app_iff. auto.
        -- intros (c & Hin & Hkc & ->). exists c.
           apply in_app_iff in Hin as [Hin|[<-|[]]]; [auto | congruence].
    + exists args. rewrite in_app_iff. cbn. auto.
    + intros c. rewrite in_app_iff. cbn. intros [H|[<-|[]]]; auto.
    + intros c Hin. rewrite in_app_iff. auto.
Qed.

(** Over a sequence of calls: every call returns what [fn] gave at an
    invocation with the same key, and [fn] is invoked with argument lists
    of the sequence only. *)
Lemma memo_run_inv (trace : list (list value)) :
  forall st : memo,
    memo_inv st ->
    memo_inv (snd (run st trace)) /\
    Forall2 (fun args r =>
               exists c, In c (calls (snd (run st trace))) /\ key c = key args /\ r = fn c)
            trace (fst (run st trace)) /\
    (forall c, In c (calls (snd (run st trace))) -> In c (calls st) \/ In c trace) /\
    (forall c, In c (calls st) -> In c (calls (snd (run st trace)))).
Proof.
  induction trace as [|args trace IH]; intros st Hinv.
  - cbn. repeat split; try apply Hinv; auto.
  - cbn [memo_run].
    destruct (memoized_inv st args Hinv) as (Hinv' & (c & Hc & Hkc & Hr) & Hnew & Hold).
    destruct (wrapper st args) as [r st'] eqn:Hstep. cbn [fst snd] in *.
    specialize (IH st' Hinv') as (Hinv'' & Hall & Hnew' & Hold').
    destruct (run st' trace) as [rs st''] eqn:Hrun. cbn [fst snd] in *.
    split; [assumption|]. split; [|split].
    + constructor; [|assumption]. exists c. auto.
    + intros c' Hc'. destruct (Hnew' c' Hc') as [H|H]; [|now right; right].
      destruct (Hnew c' H) as [H'| ->]; [now left | right; now left].
    + auto.
Qed.

(** Among other calls: in any sequence of calls of a fresh wrapper in
    which [a] occurs and nothing else has the key of [a], [fn] is invoked
    with [a] exactly once, and each call with [a] returns the value of
    that invocation. *)
Lemma memoize_once_among_calls (a : list value) (trace : list (list value)) :
  In a trace ->
  (forall b, In b trace -> key b = key a -> b = a) ->
  (exists before after,
      calls (snd (run memo_new trace)) = before ++ a :: after /\
      ~ In a before /\ ~ In a after) /\
  Forall2 (fun args r => args = a -> r = fn a) trace (fst (run memo_new trace)).
Proof.
  intros Ha Hkey.
  destruct (memo_run_inv trace memo_new memo_inv_new)
    as ([Hnd _] & Hall & Hnew & _).
  assert (Hsub : forall c, In c (calls (snd (run memo_new trace))) -> In c trace).
  { intros c Hc. now destruct (Hnew c Hc) as [[]|H]. }
  split.
  - assert (Hin : In a (calls (snd (run memo_new trace)))).
    { destruct (Forall2_In_l _ _ _ a Hall Ha) as (r & _ & c & Hc & Hkc & _).
      now rewrite <- (Hkey c (Hsub c Hc) Hkc). }
    apply in_split in Hin as (before & after & Hsplit).
    exists before, after. split; [assumption|].
    rewrite Hsplit, map_app in Hnd. cbn [map] in Hnd.
    apply NoDup_app in Hnd as (_ & Hdisj & Hnd').
    apply NoDup_cons in Hnd' as [Hnot _].
    split.
    + intros Hb. apply (Hdisj (key a)).
      * apply list_elem_of_In, in_map_iff. now exists a.
      * left.
    + intros Hb. apply Hnot. apply list_elem_of_In, in_map_iff. now exists a.
  - eapply Forall2_impl; [exact Hall|].
    intros args r (c & Hc & Hkc & ->) ->. cbn beta.
    now rewrite (Hkey c (Hsub c Hc) Hkc).
Qed.

(** Once the key of [a] is in the cache, calls with [a] return the cached
    value and leave the state as it is. *)
Lemma memo_run_hits (a : list value) (r : value) (n : nat) (st : memo) :
  cache st !! key a = Some r ->
  run st (repeat a n) = (repeat r n, st).
Proof.
  intros Hhit. induction n as [|n IH]; [reflexivity|].
  cbn [repeat memo_run]. unfold memoized. now rewrite Hhit, IH.
Qed.

(** The plainest case: a fresh wrapper called [n] times, [n >= 1], with
    the argument list [a] and with nothing else. *)
Lemma memoize_repeated_call (a : list value) (n : nat) :
  (0 < n)%nat ->
  calls (snd (run memo_new (repeat a n))) = [a] /\
  fst (run memo_new (repeat a n)) = repeat (fn a) n.
Proof.
  intros Hn. destruct n as [|n]; [lia|].
  cbn [repeat memo_run].
  assert (Hfirst : wrapper memo_new a
                   = (fn a, {| cache := <[key a := fn a]> ∅; calls := [a] |})).
  { unfold memoized. cbn [cache calls memo_new]. now rewrite lookup_empty. }
  rewrite Hfirst.
  rewrite (memo_run_hits a (fn a) n) by apply lookup_insert_eq.
  split; reflexivity.
Qed.

End Memoize.

(** Calls with [a] among calls with other arguments. *)
Example memoize_once_among_calls_example :
  let fn := fun args : list value => VArr args in
  let a := [VStr "x"; VNull] in
  let trace := [a; [VBool true]; a; a] in
  (exists before after,
      calls (snd (memo_run (fun _ => "0") (fun _ => "0") fn memo_new trace))
        = before ++ a :: after /\
      ~ In a before /\ ~ In a after) /\
  Forall2 (fun args r => args = a -> r = fn a) trace
          (fst (memo_run (fun _ => "0") (fun _ => "0") fn memo_new trace)).
Proof.
  intros fn a trace.
  apply (memoize_once_among_calls (fun _ => "0") (fun _ => "0") fn a trace).
  - now left.
  - intros b [<-|[<-|[<-|[<-|[]]]]]; [reflexivity | | reflexivity | reflexivity].
    vm_compute. discriminate.
Qed.

(** A call with [[null]] after a call with [[undefined]] finds the key
    taken: [fn] is not invoked for it, and the value cached for
    [[undefined]] is returned. *)
Example memoize_collision_returns_other_value
    (Number_toString Date_toISOString : Num.number -> string) :
  let fn := fun args : list value => VArr args in
  memo_run Number_toString Date_toISOString fn memo_new [[VUndefined]; [VNull]]
  = ([VArr [VUndefined]; VArr [VUndefined]],
     {| cache := {[ "[null]" := VArr [VUndefined] ]}; calls := [[VUndefined]] |}).
Proof. reflexivity. Qed.

(** The key follows the property order of an object: two objects with the
    same properties in a different order are different trees and have
    different keys. *)
Example cache_key_follows_property_order
    (Number_toString Date_toISOString : Num.number -> string) :
  cache_key Number_toString Date_toISOString [VObj [("a", VNull); ("b", VNull)]]
  <> cache_key Number_toString Date_toISOString [VObj [("b", VNull); ("a", VNull)]].
Proof. discriminate. Qed.

(** ** Currying (C2) *)

Lemma concat_nonempty_nil (groups : list (list value)) :
  Forall (fun g => g <> []) groups -> concat groups = [] -> groups = [].
Proof.
  intros Hne Hcat. destruct groups as [|g groups]; [reflexivity|].
  apply Forall_cons in Hne as [Hg _]. cbn in Hcat.
  now apply app_eq_nil in Hcat as [-> _].
Qed.

(** A waiting function that is fed the missing arguments in non-empty
    groups returns, at the last call, what [fn] returns for all of
    them. *)
Lemma call_chain_waiting (fn : js_function) (groups : list (list value)) :
  forall acc : list value,
    Forall (fun g => g <> []) groups ->
    groups <> [] ->
    length (acc ++ concat groups) = fn_length fn ->
    call_chain fn (Waiting acc) groups = Some (Result (fn_apply fn (acc ++ concat groups))).
Proof.
  induction groups as [|g groups IH]; intros acc Hne Hsome Hlen; [easy|].
  apply Forall_cons in Hne as [Hg Hne].
  cbn [concat] in Hlen. cbn [call_chain call concat]. cbn [mbind option_bind].
  unfold curried_call. rewrite app_assoc in Hlen |- *.
  destruct (decide (groups = [])) as [->|Hmore].
  - cbn [concat] in Hlen |- *. rewrite app_nil_r in Hlen |- *.
    rewrite (proj2 (Nat.leb_le _ _)) by lia. reflexivity.
  - assert (Hrest : concat groups <> []).
    { intros Hnil. apply Hmore. now apply concat_nonempty_nil. }
    assert (length (concat groups) <> 0%nat).
    { intros H0. apply Hrest. now apply nil_length_inv. }
    rewrite length_app in Hlen.
    rewrite (proj2 (Nat.leb_gt _ _)) by lia.
    apply IH; try assumption. now rewrite length_app.
Qed.

(** C2: the arguments of a function of arity [n >= 1], split into one or
    more successive non-empty groups, give through [curry] what the
    function gives for all of them at once. *)
Theorem curry_any_grouping (fn : js_function) (args : list value) (groups : list (list value)) :
  length args = fn_length fn ->
  concat groups = args ->
  Forall (fun g => g <> []) groups ->
  groups <> [] ->
  call_chain fn (curry fn) groups = Some (Result (fn_apply fn args)).
Proof.
  intros Hlen <- Hne Hsome. unfold curry.
  now rewrite (call_chain_waiting fn groups []).
Qed.

Lemma curry_any_grouping_witness :
  let add3 := {| fn_length := 3; fn_apply := fun args => VArr (rev args) |} in
  let a := VStr "1" in
  let b := VStr "2" in
  let c := VStr "3" in
  call_chain add3 (curry add3) [[a]; [b]; [c]] = Some (Result (fn_apply add3 [a; b; c])) /\
  call_chain add3 (curry add3) [[a; b]; [c]] = Some (Result (fn_apply add3 [a; b; c])) /\
  call_chain add3 (curry add3) [[a]; [b; c]] = Some (Result (fn_apply add3 [a; b; c])) /\
  call_chain add3 (curry add3) [[a; b; c]] = Some (Result (fn_apply add3 [a; b; c])).
Proof.
  intros add3 a b c.
  split; [|split; [|split]];
    (apply (curry_any_grouping add3 [a; b; c]);
     [ reflexivity | reflexivity | repeat constructor; discriminate | discriminate ]).
Defined.

(** ** Inputs of the wrong type (C3) *)

Lemma not_a_string_guard (v : value) :
  not_a_string v -> negb (typeof v =? "string") = true.
Proof.
  intros H. apply negb_true_iff, String.eqb_neq. exact H.
Qed.

Lemma not_an_object_guard (v : value) :
  not_an_object v -> is_null v || negb (typeof v =? "object") = true.
Proof.
  intros [->|H]; [reflexivity|].
  apply orb_true_iff. right. apply negb_true_iff, String.eqb_neq. exact H.
Qed.

(** C3, as the code has it: on an input of the wrong type every guarded
    helper returns its default and throws nothing; the default is one of
    the five values listed, except that [last] returns [undefined]. *)
Theorem wrong_type_defaults
    (js_add js_div : value -> value -> value)
    (same_reference : value -> value -> bool)
    (exotic_properties : value -> list (string * value))
    (s a o x : value) (n : option Z) (suffix : option string)
    (vs : list value) (ks : list string) (size : option nat) (fuel : nat) :
  not_a_string s -> not_an_array a -> not_an_object o ->
  (capitalize s = Normal (VStr "") /\
   truncate s n suffix = Normal (VStr "") /\
   kebabCase s = Normal (VStr "") /\
   isPalindrome s = Normal (VBool false)) /\
  (mean js_add js_div a = Normal (VNum Num.NaN) /\
   last a = Normal VUndefined /\
   includes same_reference a x = Normal (VBool false) /\
   without same_reference a vs = Normal (VArr []) /\
   chunk fuel a size = Normal (VArr []) /\
   unique same_reference a = Normal (VArr [])) /\
  (keys o = Normal (VArr []) /\
   values o = Normal (VArr []) /\
   pick exotic_properties o ks = Normal (VObj []) /\
   omit exotic_properties o ks = Normal (VObj [])).
Proof.
  intros Hs Ha Ho.
  apply not_a_string_guard in Hs. apply not_an_object_guard in Ho.
  unfold not_an_array in Ha.
  unfold capitalize, truncate, kebabCase, isPalindrome, mean, last, includes,
    without, chunk, unique, keys, values, pick, omit.
  rewrite Hs, Ha, Ho. cbn. repeat split; reflexivity.
Qed.

Lemma wrong_type_defaults_witness :
  (capitalize (VNum Num.one) = Normal (VStr "") /\
   truncate (VNum Num.one) None None = Normal (VStr "") /\
   kebabCase (VNum Num.one) = Normal (VStr "") /\
   isPalindrome (VNum Num.one) = Normal (VBool false)) /\
  (mean (fun x _ => x) (fun x _ => x) (VStr "abc") = Normal (VNum Num.NaN) /\
   last (VStr "abc") = Normal VUndefined /\
   includes (fun _ _ => false) (VStr "abc") VNull = Normal (VBool false) /\
   without (fun _ _ => false) (VStr "abc") [VNull] = Normal (VArr []) /\
   chunk 0 (VStr "abc") (Some 2) = Normal (VArr []) /\
   unique (fun _ _ => false) (VStr "abc") = Normal (VArr [])) /\
  (keys VNull = Normal (VArr []) /\
   values VNull = Normal (VArr []) /\
   pick (fun _ => []) VNull ["a"] = Normal (VObj []) /\
   omit (fun _ => []) VNull ["a"] = Normal (VObj [])).
Proof.
  apply (wrong_type_defaults (fun x _ => x) (fun x _ => x) (fun _ _ => false)
           (fun _ => []) (VNum Num.one) (VStr "abc") VNull VNull None None
           [VNull] ["a"] (Some 2) 0).
  - unfold not_a_string. cbn. discriminate.
  - reflexivity.
  - left. reflexivity.
Defined.

(** C3 as stated fails at [last]: its default is [undefined], which is
    none of the values listed. *)
Lemma last_default_is_undefined :
  not_an_array (VNum Num.one) /\
  last (VNum Num.one) = Normal VUndefined /\
  ~ benign_default VUndefined.
Proof.
  split; [reflexivity|]. split; [reflexivity|].
  unfold benign_default. intros [H|[H|[H|[H|H]]]]; discriminate H.
Qed.



(** ** Chunks (C4) *)

Lemma chunks_ok_full (size : nat) (done : list (list value)) :
  (0 < size)%nat ->
  Forall (fun c => length c = size) done ->
  chunks_ok size done.
Proof.
  intros Hsize Hdone i c Hi.
  assert (Hc : length c = size).
  { eapply (proj1 (Forall_lookup _ _)) in Hdone; eauto. }
  lia.
Qed.

Lemma chunks_ok_snoc (size : nat) (done : list (list value)) (c : list value) :
  Forall (fun c => length c = size) done ->
  (1 <= length c <= size)%nat ->
  chunks_ok size (done ++ [c]).
Proof.
  intros Hdone Hc i c' Hi. rewrite length_app. cbn [length].
  destruct (decide (i < length done)%nat) as [Hlt|Hge].
  - rewrite lookup_app_l in Hi by assumption.
    assert (Hc' : length c' = size).
    { eapply (proj1 (Forall_lookup _ _)) in Hdone; eauto. }
    lia.
  - rewrite lookup_app_r in Hi by lia.
    destruct (i - length done)%nat as [|k] eqn:Hk; [|now destruct k].
    injection Hi as <-. split; [assumption | lia].
Qed.

(** The loop, started at a multiple [i] of [size] within the array with
    the full chunks that cover the first [i] elements, returns a chunking
    of the whole array, provided the fuel outlasts the elements left. *)
Lemma chunk_loop_spec (fuel : nat) :
  forall (items : list value) (size i : nat) (done : list (list value)),
    (0 < size)%nat ->
    (i <= length items)%nat ->
    (length items - i < fuel)%nat ->
    concat done = firstn i items ->
    Forall (fun c => length c = size) done ->
    exists chunks : list (list value),
      chunk_loop fuel items size i (map VArr done) = Normal (map VArr chunks) /\
      concat chunks = items /\
      chunks_ok size chunks.
Proof.
  induction fuel as [|fuel IH]; intros items size i done Hsize Hi Hfuel Hdone Hfull;
    [lia|].
  cbn [chunk_loop].
  destruct (i <? length items)%nat eqn:Hlt.
  - apply Nat.ltb_lt in Hlt.
    set (c := Array_slice items i (i + size)).
    assert (Hc : c = firstn size (skipn i items)).
    { unfold c, Array_slice. f_equal. lia. }
    replace (map VArr done ++ [VArr c]) with (map VArr (done ++ [c]))
      by now rewrite map_app.
    destruct (decide (i + size <= length items)%nat) as [Hfit|Hover].
    + (* a full chunk; the loop goes on *)
      apply IH; try lia.
      * rewrite concat_app, Hdone, Hc. cbn [concat]. rewrite app_nil_r.
        apply take_take_drop.
      * apply Forall_app. split; [assumption|].
        constructor; [|constructor].
        rewrite Hc, length_take, length_drop. lia.
    + (* the last chunk; the next test ends the loop *)
      destruct fuel as [|fuel]; [lia|].
      cbn [chunk_loop].
      assert (Hend : (i + size <? length items)%nat = false)
        by (apply Nat.ltb_ge; lia).
      rewrite Hend.
      exists (done ++ [c]). split; [reflexivity|]. split.
      * rewrite concat_app, Hdone, Hc. cbn [concat]. rewrite app_nil_r.
        rewrite (take_ge (drop i items)) by (rewrite length_drop; lia).
        apply take_drop.
      * apply chunks_ok_snoc; [assumption|].
        rewrite Hc, length_take, length_drop. lia.
  - apply Nat.ltb_ge in Hlt.
    exists done. split; [reflexivity|]. split.
    + rewrite Hdone. apply take_ge. lia.
    + now apply chunks_ok_full.
Qed.

(** C4: for a positive [size] the call returns (given fuel beyond the
    length of the array) chunks that concatenate to the array, each but
    the last of length [size] and the last, when there is one, of a length
    between 1 and [size]. *)
Theorem chunk_partition (fuel : nat) (items : list value) (size : nat) :
  (0 < size)%nat ->
  (length items < fuel)%nat ->
  exists chunks : list (list value),
    chunk fuel (VArr items) (Some size) = Normal (VArr (map VArr chunks)) /\
    concat chunks = items /\
    (forall i c, chunks !! i = Some c -> (S i < length chunks)%nat -> length c = size) /\
    (forall c, chunks !! (length chunks - 1)%nat = Some c ->
               (1 <= length c <= size)%nat) /\
    (items <> [] -> chunks <> []).
Proof.
  intros Hsize Hfuel.
  destruct (chunk_loop_spec fuel items size 0 [] Hsize) as (chunks & Hrun & Hcat & Hok);
    [lia | lia | reflexivity | constructor |].
  exists chunks. split.
  - unfold chunk. cbn. cbn in Hrun. now rewrite Hrun.
  - split; [assumption|]. split; [|split].
    + intros i c Hi Hnext. now apply (Hok i c Hi).
    + intros c Hc. now apply (Hok _ c Hc).
    + intros Hne ->. now apply Hne.
Qed.

Lemma chunk_partition_witness :
  exists chunks : list (list value),
    chunk 6 (VArr [VNum Num.one; VNull; VBool true; VStr "d"; VUndefined]) (Some 2)
      = Normal (VArr (map VArr chunks)) /\
    concat chunks = [VNum Num.one; VNull; VBool true; VStr "d"; VUndefined] /\
    (forall i c, chunks !! i = Some c -> (S i < length chunks)%nat -> length c = 2%nat) /\
    (forall c, chunks !! (length chunks - 1)%nat = Some c ->
               (1 <= length c <= 2)%nat) /\
    ([VNum Num.one; VNull; VBool true; VStr "d"; VUndefined] <> [] -> chunks <> []).
Proof.
  apply (chunk_partition 6 [VNum Num.one; VNull; VBool true; VStr "d"; VUndefined] 2);
    cbn; lia.
Defined.

(** X27: with [size = 0] the index never advances: no amount of fuel lets the
    loop over a non-empty array finish. *)
Lemma chunk_size_zero_never_returns (fuel : nat) (x : value) (items : list value) :
  chunk fuel (VArr (x :: items)) (Some 0%nat) = OutOfFuel.
Proof.
  unfold chunk. cbn.
  enough (H : forall result, chunk_loop fuel (x :: items) 0 0 result = OutOfFuel)
    by now rewrite H.
  induction fuel as [|fuel IH]; intros result; [reflexivity|].
  cbn [chunk_loop]. cbn. apply IH.
Qed.

(** ** Debouncing (C5) *)




Lemma last_cons_default {A : Type} (l : list A) :
  forall c d : A, List.last (c :: l) d = List.last l c.
Proof.
  induction l as [|x l IH]; intros c d; [reflexivity|].
  change (List.last (c :: x :: l) d) with (List.last (x :: l) d).
  now rewrite !IH.
Qed.




(** Calls that are [wait] or more apart are no burst: each one fires. *)
Example debounce_spaced_calls_fire :
  invoked (debounce_run 100 0 [(0, [VStr "a"]); (100, [VStr "b"])]%Z)
  = [(100, [VStr "a"]); (200, [VStr "b"])]%Z.
Proof. reflexivity. Qed.

(** ** Palindromes (C6) *)

Lemma chars_of_chars (l : list ascii) : chars (of_chars l) = l.
Proof. apply list_ascii_of_string_of_list_ascii. Qed.

Lemma of_chars_chars (s : string) : of_chars (chars s) = s.
Proof. apply string_of_list_ascii_of_string. Qed.




Lemma append_assoc (s1 s2 s3 : string) :
  (s1 +:+ s2) +:+ s3 = s1 +:+ (s2 +:+ s3).
Proof.
  induction s1 as [|c s1 IH]; [reflexivity|].
  change (String c ((s1 +:+ s2) +:+ s3) = String c (s1 +:+ (s2 +:+ s3))).
  now rewrite IH.
Qed.

Lemma join_units_app (l1 l2 : list string) :
  join_units (l1 ++ l2) = join_units l1 +:+ join_units l2.
Proof.
  induction l1 as [|x l1 IH]; [reflexivity|].
  change (x +:+ join_units (l1 ++ l2) = (x +:+ join_units l1) +:+ join_units l2).
  now rewrite IH, append_assoc.
Qed.

Lemma of_chars_app (l1 l2 : list ascii) :
  of_chars (l1 ++ l2) = of_chars l1 +:+ of_chars l2.
Proof.
  induction l1 as [|c l1 IH]; [reflexivity|].
  change (String c (of_chars (l1 ++ l2)) = String c (of_chars l1 +:+ of_chars l2)).
  now rewrite IH.
Qed.

Lemma split_reverse_join (s : string) :
  join_units (rev (split_units s)) = string_reverse s.
Proof.
  unfold split_units, string_reverse.
  induction (chars s) as [|c l IH]; [reflexivity|].
  cbn [map rev]. now rewrite join_units_app, IH, of_chars_app.
Qed.



(** The letters that count are those of A-Z and a-z: of U+00C0, [b],
    U+00E9 only the [b] is left, a palindrome. *)
Example isPalindrome_drops_other_letters :
  isPalindrome (VStr (String (ascii_of_nat 192) (String "b" (String (ascii_of_nat 233) ""))))
  = Normal (VBool true).
Proof. reflexivity. Qed.

(** ** Property assignment *)

Lemma update_prop_fresh (props : list (string * value)) (key : string) (v : value) :
  ~ In key (map fst props) ->
  update_prop props key v = props ++ [(key, v)].
Proof.
  induction props as [|[k w] props IH]; intros Hfresh; [reflexivity|].
  cbn in *. destruct (String.eqb_spec k key) as [->|Hne].
  - exfalso. apply Hfresh. now left.
  - rewrite IH; [reflexivity|]. intros Hin. apply Hfresh. now right.
Qed.

Lemma obj_set_fresh (props : list (string * value)) (key : string) (v : value) :
  key <> "__proto__" ->
  ~ In key (map fst props) ->
  obj_set props key v = props ++ [(key, v)].
Proof.
  intros Hkey Hfresh. unfold obj_set.
  destruct (String.eqb_spec key "__proto__") as [->|_]; [easy|].
  now apply update_prop_fresh.
Qed.

Lemma lookup_prop_own (props rest : list (string * value)) (key : string) (v : value) :
  distinct_keys props ->
  In (key, v) props ->
  lookup_prop key (props ++ rest) = Some v.
Proof.
  unfold distinct_keys.
  induction props as [|[k w] props IH]; intros Hnd Hin; [easy|].
  cbn in *. apply NoDup_cons in Hnd as [Hk Hnd].
  destruct Hin as [[= -> ->]|Hin].
  - now rewrite String.eqb_refl.
  - destruct (String.eqb_spec k key) as [->|Hne].
    + exfalso. apply Hk. apply list_elem_of_In, in_map_iff. now exists (key, v).
    + now apply IH.
Qed.

(** ** [pick] and [omit] (C7) *)

(** What C7 says of [omit] holds of an object with distinct keys none of
    which is [__proto__]: the result keeps, in order, the own properties
    whose key is not listed. *)
Lemma omit_own_properties
    (exotic_properties : value -> list (string * value))
    (props : list (string * value)) (ks : list string) :
  distinct_keys props -> no_proto_key props ->
  omit exotic_properties (VObj props) ks
  = Normal (VObj (List.filter (fun kv => negb (existsb (String.eqb (fst kv)) ks)) props)).
Proof.
  intros Hnd Hnp. unfold omit. cbn.
  set (step := fun (result : list (string * value)) (key : string) => _).
  set (keep := fun kv : string * value => negb (existsb (String.eqb (fst kv)) ks)).
  enough (H : forall todo seen acc,
             props = seen ++ todo ->
             (forall k, In k (map fst acc) -> In k (map fst seen)) ->
             foldM step (map fst todo) acc = Normal (acc ++ List.filter keep todo)).
  { rewrite (H props [] []); [reflexivity | reflexivity | easy]. }
  induction todo as [|[k v] todo IH]; intros seen acc Hsplit Hacc.
  - cbn. now rewrite app_nil_r.
  - assert (Hin : In (k, v) props) by (rewrite Hsplit; apply in_or_app; right; now left).
    assert (Hfresh : ~ In k (map fst acc)).
    { intros Hk. apply Hacc in Hk.
      unfold distinct_keys in Hnd. rewrite Hsplit, map_app in Hnd.
      apply NoDup_app in Hnd as (_ & Hdisj & _).
      apply (Hdisj k); [now apply list_elem_of_In|]. cbn. now left. }
    assert (Hkey : k <> "__proto__").
    { intros ->. apply Hnp. apply in_map_iff. now exists ("__proto__", v). }
    assert (Hnext : props = (seen ++ [(k, v)]) ++ todo) by now rewrite <- app_assoc.
    assert (Hstep : step acc k = Normal (acc ++ List.filter keep [(k, v)])).
    { subst step keep. cbn beta. cbn [List.filter fst].
      destruct (negb (existsb (String.eqb k) ks)).
      - rewrite (lookup_prop_own props _ k v Hnd Hin). cbn [default].
        now rewrite obj_set_fresh.
      - now rewrite app_nil_r. }
    change (foldM step (map fst ((k, v) :: todo)) acc)
      with (step acc k ≫= foldM step (map fst todo)).
    rewrite Hstep. unfold mbind, outcome_bind.
    rewrite (IH (seen ++ [(k, v)]) _ Hnext).
    + rewrite <- app_assoc. cbn [List.filter]. now destruct (keep (k, v)).
    + intros k'. cbn [List.filter]. destruct (keep (k, v)).
      * rewrite !map_app, !in_app_iff. intros [H|H]; [left; auto | right; exact H].
      * rewrite app_nil_r, map_app, in_app_iff. left. auto.
Qed.

Lemma has_key_app (key : string) (l1 l2 : list (string * value)) :
  has_key key (l1 ++ l2) = has_key key l1 || has_key key l2.
Proof. unfold has_key. apply existsb_app. Qed.

Lemma lookup_prop_has_key (key : string) (props : list (string * value)) :
  has_key key props = true <-> exists v, lookup_prop key props = Some v.
Proof.
  induction props as [|[k w] props IH]; cbn.
  - split; [discriminate | now intros [v Hv]].
  - destruct (k =? key); cbn; [split; eauto | exact IH].
Qed.

Lemma lookup_prop_app_Some (key : string) (l1 l2 : list (string * value)) (v : value) :
  lookup_prop key l1 = Some v -> lookup_prop key (l1 ++ l2) = Some v.
Proof.
  induction l1 as [|[k w] l1 IH]; cbn; [discriminate|].
  now destruct (k =? key).
Qed.

(** What C7 says of [pick] holds as long as no key asked for names a
    property of [Object.prototype]: the result has, in the order of the
    keys, the own properties asked for. *)
Lemma pick_own_properties
    (exotic_properties : value -> list (string * value))
    (props : list (string * value)) (ks : list string) :
  NoDup ks ->
  (forall k, In k ks -> has_key k Object_prototype = false) ->
  pick exotic_properties (VObj props) ks
  = Normal (VObj (omap (fun k => pair k <$> lookup_prop k props) ks)).
Proof.
  intros Hnd Hproto. unfold pick. cbn [is_null typeof negb orb].
  change ("object" =? "object") with true. cbn [negb].
  set (step := fun (result : list (string * value)) (key : string) => _).
  set (entry := fun k : string => pair k <$> lookup_prop k props).
  enough (H : forall todo acc,
             NoDup todo ->
             (forall k, In k todo -> has_key k Object_prototype = false) ->
             (forall k, In k (map fst acc) -> ~ In k todo) ->
             foldM step todo acc = Normal (acc ++ omap entry todo)).
  { rewrite (H ks []); [reflexivity | assumption | assumption | easy]. }
  clear Hnd Hproto.
  induction todo as [|k todo IH]; intros acc Hnd Hproto Hacc.
  - cbn. now rewrite app_nil_r.
  - apply NoDup_cons in Hnd as [Hk Hnd].
    assert (Hkproto : has_key k Object_prototype = false) by (apply Hproto; now left).
    assert (Hkey : k <> "__proto__") by (intros ->; discriminate Hkproto).
    assert (Hfresh : ~ In k (map fst acc)).
    { intros Hin. apply (Hacc k Hin). now left. }
    assert (Hstep : step acc k = Normal (acc ++ omap entry [k])).
    { subst step entry. cbn beta. unfold HasProperty, Get, all_properties.
      unfold mbind, outcome_bind. rewrite has_key_app, Hkproto, orb_false_r.
      cbn [omap]. cbn beta. destruct (lookup_prop k props) as [v|] eqn:Hv.
      - rewrite (proj2 (lookup_prop_has_key k props)) by eauto.
        rewrite (lookup_prop_app_Some k props _ v Hv). cbn.
        rewrite obj_set_fresh by assumption. now rewrite Hv.
      - destruct (has_key k props) eqn:Hhas.
        + apply lookup_prop_has_key in Hhas as [v Hv']. congruence.
        + cbn. now rewrite Hv, app_nil_r. }
    change (foldM step (k :: todo) acc) with (step acc k ≫= foldM step todo).
    rewrite Hstep. unfold mbind, outcome_bind.
    rewrite IH.
    + rewrite <- app_assoc. cbn. destruct (entry k); reflexivity.
    + assumption.
    + intros k' Hin. apply Hproto. now right.
    + intros k' Hin Htodo. rewrite map_app, in_app_iff in Hin.
      destruct Hin as [Hin|Hin].
      * apply (Hacc k' Hin). now right.
      * assert (Hk' : k' = k).
        { subst entry. cbn in Hin.
          destruct (lookup_prop k props); cbn in Hin; [|easy].
          now destruct Hin as [<-|[]]. }
        subst k'. apply Hk. now apply list_elem_of_In.
Qed.

(** C7 fails for [pick], which takes a key that [obj] merely inherits:
    [key in obj] walks the prototype chain, whereas [omit] and [deepClone]
    look at own properties only.  Here [toString], found on
    [Object.prototype], is copied into the result. *)
Theorem pick_copies_inherited_property
    (exotic_properties : value -> list (string * value)) :
  pick exotic_properties (VObj [("a", VNum Num.one)]) ["toString"]
  = Normal (VObj [("toString", VFun "Object.prototype.toString")]).
Proof. reflexivity. Qed.

(** Both return the empty object for [null] and for what is no object. *)
Lemma pick_omit_not_an_object
    (exotic_properties : value -> list (string * value))
    (o : value) (ks : list string) :
  not_an_object o ->
  pick exotic_properties o ks = Normal (VObj []) /\
  omit exotic_properties o ks = Normal (VObj []).
Proof.
  intros Ho. apply not_an_object_guard in Ho.
  unfold pick, omit. now rewrite Ho.
Qed.

(** ** Cache keys (C8) *)

(** C8 as stated fails: [undefined] in an argument list is written [null],
    so that the lists [[undefined]] and [[null]] have one key. *)
Lemma cache_key_collision :
  [VUndefined] <> [VNull] /\
  forall (Number_toString Date_toISOString : Num.number -> string),
    cache_key Number_toString Date_toISOString [VUndefined]
    = cache_key Number_toString Date_toISOString [VNull].
Proof. split; [discriminate | reflexivity]. Qed.

(** *** Strings *)

Lemma parse_unit_escape (c : ascii) (rest : list ascii) :
  parse_unit (escape_unit c ++ rest) = Some (c, rest).
Proof. destruct c as [[] [] [] [] [] [] [] []]; reflexivity. Qed.

Lemma parse_unit_quote (rest : list ascii) :
  parse_unit (double_quote :: rest) = None.
Proof. reflexivity. Qed.

Lemma escaped_body_inj (l l' r r' : list ascii) :
  flat_map escape_unit l ++ double_quote :: r
  = flat_map escape_unit l' ++ double_quote :: r' ->
  l = l' /\ r = r'.
Proof.
  revert l'. induction l as [|c l IH]; intros [|c' l'] H; cbn [flat_map app] in H.
  - now injection H.
  - apply (f_equal parse_unit) in H.
    rewrite <- app_assoc, parse_unit_escape, parse_unit_quote in H. discriminate.
  - apply (f_equal parse_unit) in H.
    rewrite <- app_assoc, parse_unit_escape, parse_unit_quote in H. discriminate.
  - apply (f_equal parse_unit) in H.
    rewrite <- !app_assoc, !parse_unit_escape in H.
    injection H as -> H. now destruct (IH l' H) as [-> ->].
Qed.

Lemma QuoteJSONString_inj (s s' : string) (r r' : list ascii) :
  QuoteJSONString s ++ r = QuoteJSONString s' ++ r' -> s = s' /\ r = r'.
Proof.
  unfold QuoteJSONString. cbn [app]. rewrite <- !app_assoc. cbn [app].
  intros [= H]. apply escaped_body_inj in H as [Hc ->]. split; [|reflexivity].
  now rewrite <- (of_chars_chars s), <- (of_chars_chars s'), Hc.
Qed.

(** *** Numerals *)

Lemma numeral_span (l l' r r' : list ascii) :
  Forall (fun c => is_numeral_char c = true) l ->
  Forall (fun c => is_numeral_char c = true) l' ->
  stops r -> stops r' ->
  l ++ r = l' ++ r' -> l = l' /\ r = r'.
Proof.
  intros Hl. revert l'. induction Hl as [|c l Hc Hl IH]; intros l' Hl' Hr Hr' H.
  - destruct Hl' as [|c' l' Hc' Hl']; [easy|].
    cbn in H. subst r. cbn in Hr. congruence.
  - destruct Hl' as [|c' l' Hc' Hl'].
    + cbn in H. subst r'. cbn in Hr'. congruence.
    + cbn in H. injection H as -> H.
      now destruct (IH l' Hl' Hr Hr' H) as [-> ->].
Qed.

(** *** Lists of parts *)

Lemma join_with_close (close : ascii) (parts : list (list ascii)) :
  join_with [","%char] parts ++ [close]
  = match parts with
    | [] => [close]
    | p :: parts' => p ++ more_parts close parts'
    end.
Proof.
  destruct parts as [|p parts]; [reflexivity|].
  revert p. induction parts as [|q parts IH]; intros p; [reflexivity|].
  change (join_with [","%char] (p :: q :: parts))
    with (p ++ [","%char] ++ join_with [","%char] (q :: parts)).
  rewrite <- !app_assoc, IH. reflexivity.
Qed.

Lemma stops_more_parts (close : ascii) (parts : list (list ascii)) (r : list ascii) :
  is_numeral_char close = false -> stops (more_parts close parts ++ r).
Proof. intros Hclose. now destruct parts. Qed.

Section parts.

Context {X : Type}.
Variable text : X -> list ascii.
Variable Q : X -> Prop.
Variable close : ascii.
Hypothesis close_not_comma : close <> ","%char.
Hypothesis close_stops : is_numeral_char close = false.
Hypothesis text_head :
  forall x, Q x -> exists c rest, text x = c :: rest /\ c <> close.

(** A part whose text, followed by something that stops a numeral,
    determines it among the parts that satisfy [Q]. *)
Definition determined (x : X) : Prop :=
  forall (x' : X) (s s' : list ascii),
    Q x' -> stops s -> stops s' ->
    text x ++ s = text x' ++ s' -> x = x' /\ s = s'.

Lemma more_parts_inj (xs : list X) :
  forall (xs' : list X) (r r' : list ascii),
    Forall determined xs -> Forall Q xs' ->
    more_parts close (map text xs) ++ r = more_parts close (map text xs') ++ r' ->
    xs = xs' /\ r = r'.
Proof.
  induction xs as [|x xs IH]; intros [|x' xs'] r r' Hdet HQ H; cbn in H.
  - now injection H.
  - injection H as Hc _. now destruct close_not_comma.
  - injection H as Hc _. now destruct close_not_comma.
  - apply Forall_cons in Hdet as [Hx Hdet]. apply Forall_cons in HQ as [Hx' HQ].
    injection H as H. rewrite <- !app_assoc in H.
    apply Hx in H as [-> H]; try assumption; try now apply stops_more_parts.
    now destruct (IH xs' r r' Hdet HQ H) as [-> ->].
Qed.

Lemma joined_parts_inj (xs xs' : list X) (r r' : list ascii) :
  Forall determined xs -> Forall Q xs -> Forall Q xs' ->
  (join_with [","%char] (map text xs) ++ [close]) ++ r
  = (join_with [","%char] (map text xs') ++ [close]) ++ r' ->
  xs = xs' /\ r = r'.
Proof.
  intros Hdet HQ HQ'. rewrite !join_with_close.
  destruct xs as [|x xs], xs' as [|x' xs']; cbn [map].
  - now intros [= ->].
  - apply Forall_cons in HQ' as [Hx' _].
    destruct (text_head x' Hx') as (c & rest & -> & Hc).
    intros [= <- _]. now destruct Hc.
  - apply Forall_cons in HQ as [Hx _].
    destruct (text_head x Hx) as (c & rest & -> & Hc).
    intros [= -> _]. now destruct Hc.
  - apply Forall_cons in Hdet as [Hx Hdet]. apply Forall_cons in HQ' as [Hx' HQ'].
    rewrite <- !app_assoc. intros H.
    apply Hx in H as [-> H]; try assumption; try now apply stops_more_parts.
    now destruct (more_parts_inj xs xs' r r' Hdet HQ' H) as [-> ->].
Qed.

End parts.

(** *** Values *)

Section exact_values.

Variable Number_toString : Num.number -> string.
Variable Date_toISOString : Num.number -> string.
Variable P : Num.number -> Prop.
Hypothesis numerals : numerals_faithful Number_toString P.

Local Abbreviation serialize := (SerializeJSONProperty Number_toString Date_toISOString).
Local Abbreviation exact := (json_exact P).

(** The text of a value, [null] standing in where it has none. *)
Definition render (v : value) : list ascii :=
  default (chars "null") (serialize v).

Definition entry_text (kv : string * value) : list ascii :=
  QuoteJSONString (fst kv) ++ chars ":" ++ render (snd kv).

Lemma render_array (items : list value) :
  render (VArr items)
  = "["%char :: (join_with [","%char] (map render items) ++ ["]"%char]).
Proof. reflexivity. Qed.

Lemma entries_of_exact (props : list (string * value)) :
  Forall (fun kv => exact (snd kv)) props ->
  flat_map (fun kv : string * value =>
              match serialize (snd kv) with
              | Some text => [QuoteJSONString (fst kv) ++ chars ":" ++ text]
              | None => []
              end) props
  = map entry_text props.
Proof.
  induction 1 as [|[k v] props Hv _ IH]; [reflexivity|].
  cbn [flat_map map]. rewrite IH. cbn [snd fst] in *.
  unfold entry_text, render. cbn [fst snd].
  destruct Hv as [ |[]| | | | ]; reflexivity.
Qed.

Lemma render_object (props : list (string * value)) :
  Forall (fun kv => exact (snd kv)) props ->
  render (VObj props)
  = "{"%char :: (join_with [","%char] (map entry_text props) ++ ["}"%char]).
Proof.
  intros Hprops. rewrite <- (entries_of_exact props Hprops). reflexivity.
Qed.

Lemma render_number (n : Num.number) :
  P n ->
  render (VNum n) = chars (Number_toString n) /\
  Forall (fun c => is_numeral_char c = true) (render (VNum n)) /\
  exists c rest, render (VNum n) = c :: rest /\ is_numeral_char c = true.
Proof.
  intros Hn. destruct numerals as [Hchars _].
  destruct (Hchars n Hn) as (Hfin & Hne & Hall).
  unfold render. cbn. rewrite Hfin. split; [reflexivity|]. split; [assumption|].
  destruct (chars (Number_toString n)) as [|c rest]; [easy|].
  apply Forall_cons in Hall as [Hc _]. now exists c, rest.
Qed.

(** The first character of a text tells what kind of value it is. *)
Lemma render_head (v : value) :
  exact v ->
  exists c rest, render v = c :: rest /\
    ((is_numeral_char c = true /\ exists n, v = VNum n) \/
     (is_numeral_char c = false /\ (forall n, v <> VNum n) /\
      c = match v with
          | VNull => "n"%char
          | VBool true => "t"%char
          | VBool false => "f"%char
          | VStr _ => double_quote
          | VArr _ => "["%char
          | _ => "{"%char
          end)).
Proof.
  intros [ |[]|n Hn|s|items Hitems|props Hprops].
  - exists "n"%char, (chars "ull"). split; [reflexivity|]. right. now repeat split.
  - exists "t"%char, (chars "rue"). split; [reflexivity|]. right. now repeat split.
  - exists "f"%char, (chars "alse"). split; [reflexivity|]. right. now repeat split.
  - destruct (render_number n Hn) as (_ & _ & c & rest & Hr & Hc).
    exists c, rest. split; [assumption|]. left. eauto.
  - eexists _, _. split; [reflexivity|]. right. now repeat split.
  - eexists _, _. split; [apply render_array|]. right. now repeat split.
  - eexists _, _. split; [now apply render_object|]. right. now repeat split.
Qed.

Lemma render_head_not (close : ascii) (v : value) :
  is_numeral_char close = false ->
  close = "]"%char \/ close = "}"%char ->
  exact v -> exists c rest, render v = c :: rest /\ c <> close.
Proof.
  intros Hclose Hwhich Hv.
  destruct (render_head v Hv) as (c & rest & Hr & [[Hc _]|(_ & _ & Hc)]);
    exists c, rest; (split; [assumption|]).
  - intros ->. congruence.
  - subst c. destruct Hwhich as [-> | ->]; destruct v as [| |[]| | | | | |]; discriminate.
Qed.

(** Texts of values of different kinds differ at the first character. *)
Lemma render_kind (v v' : value) (s s' : list ascii) :
  exact v -> exact v' ->
  render v ++ s = render v' ++ s' ->
  match v, v' with
  | VNull, VNull => True
  | VBool b, VBool b' => b = b'
  | VNum _, VNum _ => True
  | VStr _, VStr _ => True
  | VArr _, VArr _ => True
  | VObj _, VObj _ => True
  | _, _ => False
  end.
Proof.
  intros Hv Hv' H.
  destruct (render_head v Hv) as (c & rest & Hr & Hc).
  destruct (render_head v' Hv') as (c' & rest' & Hr' & Hc').
  rewrite Hr, Hr' in H. injection H as <- _.
  destruct Hc as [[Hc [n ->]]|(Hc & Hn & ->)], Hc' as [[Hc' [n' ->]]|(Hc' & Hn' & Hcc)];
    try exact I; try congruence.
  destruct Hv as [ |[]| | | | ], Hv' as [ |[]| | | | ];
    try exact I; try reflexivity; try discriminate Hcc;
    try (now destruct (Hn _ eq_refl)); try (now destruct (Hn' _ eq_refl)).
Qed.

Lemma entry_determined (kv : string * value) :
  determined render exact (snd kv) ->
  determined entry_text (fun kv => exact (snd kv)) kv.
Proof.
  intros Hdet [k' v'] s s' Hv' Hs Hs' H. destruct kv as [k v].
  unfold entry_text in H. cbn [fst snd] in *.
  rewrite <- !app_assoc in H.
  apply QuoteJSONString_inj in H as [-> H].
  cbn [chars list_ascii_of_string app] in H. injection H as H.
  now destruct (Hdet v' s s' Hv' Hs Hs' H) as [-> ->].
Qed.

(** The text of an exact value, followed by what stops a numeral,
    determines the value among the exact values. *)
Lemma render_determined (v : value) :
  exact v -> determined render exact v.
Proof.
  induction v as [| |b|n|str|f|t|items IH|props IH] using value_ind';
    intros Hv v' s s' Hv' Hs Hs' H;
    pose proof (render_kind _ _ _ _ Hv Hv' H) as Hkind;
    destruct v'; try (now destruct Hkind); try (now inversion Hv).
  - (* null *)
    cbn in H. now injection H as ->.
  - (* booleans *)
    subst. destruct b0; cbn in H; now injection H as ->.
  - (* numbers *)
    inversion Hv as [| |? Hn| | |]; inversion Hv' as [| |? Hn'| | |]; subst.
    destruct (render_number n Hn) as (Hr & Hall & _).
    destruct (render_number n0 Hn') as (Hr' & Hall' & _).
    destruct (numeral_span _ _ _ _ Hall Hall' Hs Hs' H) as [Heq ->].
    split; [|reflexivity]. f_equal. apply numerals; try assumption.
    rewrite Hr, Hr' in Heq.
    now rewrite <- (of_chars_chars (Number_toString n)), Heq, of_chars_chars.
  - (* strings *)
    change (render (VStr str)) with (QuoteJSONString str) in H.
    change (render (VStr s0)) with (QuoteJSONString s0) in H.
    now apply QuoteJSONString_inj in H as [-> ->].
  - (* arrays *)
    inversion Hv as [| | | |? Hitems|]; inversion Hv' as [| | | |? Hitems'|]; subst.
    rewrite !render_array in H. injection H as H.
    apply (joined_parts_inj render exact "]"%char) in H as [-> ->];
      try easy.
    + intros x Hx. now apply render_head_not; auto.
    + apply Forall_forall. intros x Hx.
      apply (proj1 (Forall_forall _ _) IH x Hx).
      apply (proj1 (Forall_forall _ _) Hitems x Hx).
  - (* objects *)
    inversion Hv as [| | | | |? Hprops]; inversion Hv' as [| | | | |? Hprops']; subst.
    rewrite !render_object in H by assumption. injection H as H.
    apply (joined_parts_inj entry_text (fun kv => exact (snd kv)) "}"%char) in H as [-> ->];
      try easy.
    + intros [k x] Hx. eexists _, _. split; [reflexivity | discriminate].
    + apply Forall_forall. intros kv Hkv. apply entry_determined.
      apply (proj1 (Forall_forall _ _) IH kv Hkv).
      apply (proj1 (Forall_forall _ _) Hprops kv Hkv).
Qed.


(** C8, as the code has it: argument lists made of [null], booleans,
    strings, numbers that their numerals tell apart, and arrays and
    objects of such values have different keys when they differ. *)
Theorem cache_key_distinct (a b : list value) :
  Forall exact a -> Forall exact b ->
  a <> b ->
  cache_key Number_toString Date_toISOString a
  <> cache_key Number_toString Date_toISOString b.
Proof.
  intros Ha Hb Hne Hkey. apply Hne.
  unfold cache_key in Hkey.
  apply (f_equal chars) in Hkey. rewrite !chars_of_chars in Hkey.
  assert (H : render (VArr a) ++ [] = render (VArr b) ++ [])
    by (rewrite !app_nil_r; exact Hkey).
  apply (render_determined (VArr a)) in H as [[= ->] _];
    [reflexivity | now constructor | now constructor | exact I | exact I].
Qed.

End exact_values.

Lemma cache_key_distinct_witness :
  [VNum Num.one; VStr "x"; VArr [VNull]] <> [VNum Num.one; VStr "x"; VArr [VBool true]] /\
  cache_key (fun _ => "1") (fun _ => "") [VNum Num.one; VStr "x"; VArr [VNull]]
  <> cache_key (fun _ => "1") (fun _ => "") [VNum Num.one; VStr "x"; VArr [VBool true]].
Proof.
  split; [discriminate|].
  apply (cache_key_distinct (fun _ => "1") (fun _ => "") (fun n => n = Num.one)).
  - split.
    + intros n ->. repeat split; [discriminate | repeat constructor].
    + intros n m -> ->. reflexivity.
  - repeat constructor.
  - repeat constructor.
  - discriminate.
Defined.
(** ** [clamp] (C9) *)

Module ClampProps.
Import Num.

(** *** The comparison of [spec_float] *)

Lemma SFcompare_antisym (x y : number) :
  SFcompare y x = option_map CompOpp (SFcompare x y).
Proof.
  destruct x as [sx|sx| |sx mx ex], y as [sy|sy| |sy my ey];
    try destruct sx; try destruct sy; try reflexivity; cbn.
  all: rewrite (Z.compare_antisym ex ey);
    destruct (ex ?= ey)%Z; cbn; try reflexivity;
    rewrite (Pos.compare_cont_antisym mx my Eq); cbn;
    now rewrite ?CompOpp_involutive.
Qed.

Lemma SFcompare_refl (x : number) :
  is_NaN x = false -> SFcompare x x = Some Eq.
Proof.
  destruct x as [s|s| |s m e]; try destruct s; cbn; try easy;
    intros _; rewrite Z.compare_refl;
    change (Pos.compare_cont Eq m m) with (Pos.compare m m);
    now rewrite Pos.compare_refl.
Qed.

Lemma SFcompare_Eq (x y : number) :
  SFcompare x y = Some Eq -> x = y \/ (is_zero x = true /\ is_zero y = true).
Proof.
  destruct x as [sx|sx| |sx mx ex], y as [sy|sy| |sy my ey];
    try destruct sx; try destruct sy; cbn; try discriminate; auto.
  all: destruct (ex ?= ey)%Z eqn:He; try discriminate;
    apply Z.compare_eq in He; subst ey; intros Hm; left; f_equal.
  all: injection Hm as Hm; apply Pos.compare_eq;
    change (Pos.compare_cont Eq mx my) with (Pos.compare mx my) in Hm;
    now destruct (mx ?= my)%positive.
Qed.

Lemma le_not_NaN (x y : number) :
  le x y = true -> is_NaN x = false /\ is_NaN y = false.
Proof. now destruct x, y. Qed.

Lemma SFcompare_defined (x y : number) :
  is_NaN x = false -> is_NaN y = false -> exists c, SFcompare x y = Some c.
Proof.
  destruct x as [sx|sx| |sx mx ex], y as [sy|sy| |sy my ey];
    cbn; try discriminate; eauto.
Qed.

Lemma le_refl (x : number) : is_NaN x = false -> le x x = true.
Proof. intros H. unfold le, SFleb. now rewrite SFcompare_refl. Qed.

Lemma lt_le (x y : number) : lt x y = true -> le x y = true.
Proof. unfold lt, le, SFltb, SFleb. now destruct (SFcompare x y) as [[]|]. Qed.

Lemma not_lt_le (x y : number) :
  is_NaN x = false -> is_NaN y = false -> lt x y = false -> le y x = true.
Proof.
  intros Hx Hy. unfold lt, le, SFltb, SFleb.
  rewrite (SFcompare_antisym x y).
  destruct (SFcompare_defined x y Hx Hy) as [c ->].
  now destruct c.
Qed.

(** Two numbers that [===] holds of: the same float, or two zeros. *)
Definition same_number (x y : number) : Prop :=
  x = y \/ (is_zero x = true /\ is_zero y = true).

Lemma le_le_same (x y : number) :
  le x y = true -> le y x = true -> same_number x y.
Proof.
  unfold le, SFleb. rewrite (SFcompare_antisym x y).
  destruct (SFcompare x y) as [[]|] eqn:E; cbn; try discriminate.
  intros _ _. now apply SFcompare_Eq.
Qed.

Lemma same_number_compare_r (x a b : number) :
  same_number a b -> SFcompare x a = SFcompare x b.
Proof.
  intros [->|[Ha Hb]]; [reflexivity|].
  destruct a; try discriminate. destruct b; try discriminate.
  now destruct x.
Qed.

Lemma same_number_strict_eq (x y : number) :
  is_NaN y = false -> same_number x y -> strict_eq x y = true.
Proof.
  intros Hy [->|[Hx Hz]]; unfold strict_eq, SFeqb.
  - now rewrite SFcompare_refl.
  - destruct x; try discriminate. now destruct y.
Qed.

(** *** [Math.max] and [Math.min] of two numbers *)

Lemma max_step_neg_inf (x : number) : max_step neg_inf x = x.
Proof. destruct x as [[]|[]| |[] m e]; reflexivity. Qed.

Lemma min_step_pos_inf (x : number) : min_step pos_inf x = x.
Proof. destruct x as [[]|[]| |[] m e]; reflexivity. Qed.

Lemma Math_max_pair (x y : number) : Math_max [x; y] = max_step x y.
Proof. unfold Math_max. cbn [fold_left]. now rewrite max_step_neg_inf. Qed.

Lemma Math_min_pair (x y : number) : Math_min [x; y] = min_step x y.
Proof. unfold Math_min. cbn [fold_left]. now rewrite min_step_pos_inf. Qed.

Lemma max_step_spec (x y : number) :
  is_NaN x = false -> is_NaN y = false ->
  (max_step x y = y /\ le x y = true) \/ (max_step x y = x /\ le y x = true).
Proof.
  intros Hx Hy. unfold max_step. rewrite Hx, Hy. cbn [orb].
  destruct (is_pos_zero y && is_neg_zero x) eqn:Hz.
  - left. apply andb_prop in Hz as [Hpz Hnz].
    destruct y as [[]| | |]; try discriminate.
    destruct x as [[]| | |]; try discriminate. now split.
  - destruct (lt x y) eqn:Hlt.
    + left. split; [reflexivity | now apply lt_le].
    + right. split; [reflexivity | now apply not_lt_le].
Qed.

Lemma min_step_spec (x y : number) :
  is_NaN x = false -> is_NaN y = false ->
  (min_step x y = y /\ le y x = true) \/ (min_step x y = x /\ le x y = true).
Proof.
  intros Hx Hy. unfold min_step. rewrite Hx, Hy. cbn [orb].
  destruct (is_neg_zero y && is_pos_zero x) eqn:Hz.
  - left. apply andb_prop in Hz as [Hnz Hpz].
    destruct y as [[]| | |]; try discriminate.
    destruct x as [[]| | |]; try discriminate. now split.
  - destruct (lt y x) eqn:Hlt.
    + left. split; [reflexivity | now apply lt_le].
    + right. split; [reflexivity | now apply not_lt_le].
Qed.

(** C9, as the code has it: when [num] is not NaN and [lower <= upper], the
    clamped value lies between the bounds, and a [num] that already lies
    between them is returned (as the same number: [v === num], and the very
    same float unless [num] is a zero, whose sign may change). *)
Theorem clamp_within_bounds (num lower upper : number) :
  is_NaN num = false ->
  le lower upper = true ->
  le lower (clamp num lower upper) = true /\
  le (clamp num lower upper) upper = true /\
  (le lower num = true -> le num upper = true ->
   strict_eq (clamp num lower upper) num = true /\
   (is_zero num = false -> clamp num lower upper = num)).
Proof.
  intros Hn Hlu. destruct (le_not_NaN _ _ Hlu) as [Hl Hu].
  unfold clamp. rewrite Math_max_pair, Math_min_pair.
  assert (Hfin : forall v, same_number v num ->
            strict_eq v num = true /\ (is_zero num = false -> v = num)).
  { intros v Hs. split; [now apply same_number_strict_eq|].
    intros Hz. destruct Hs as [->|[_ Hz']]; [reflexivity | congruence]. }
  destruct (max_step_spec num lower Hn Hl) as [[-> Hm]|[-> Hm]].
  - (* Math.max picked lower *)
    destruct (min_step_spec lower upper Hl Hu) as [[-> Hv]|[-> Hv]].
    + split; [assumption|]. split; [now apply le_refl|].
      intros Hln Hnu. apply Hfin.
      apply le_le_same; [|assumption].
      unfold le, SFleb.
      rewrite (same_number_compare_r upper num lower); [exact Hv|].
      now apply le_le_same.
    + split; [now apply le_refl|]. split; [assumption|].
      intros Hln Hnu. apply Hfin. now apply le_le_same.
  - (* Math.max picked num *)
    destruct (min_step_spec num upper Hn Hu) as [[-> Hv]|[-> Hv]].
    + split; [assumption|]. split; [now apply le_refl|].
      intros Hln Hnu. apply Hfin. now apply le_le_same.
    + split; [assumption|]. split; [assumption|].
      intros _ _. apply Hfin. now left.
Qed.

Lemma clamp_within_bounds_witness :
  le Num.pos_zero (clamp Num.one Num.pos_zero Num.one) = true /\
  le (clamp Num.one Num.pos_zero Num.one) Num.one = true /\
  (le Num.pos_zero Num.one = true -> le Num.one Num.one = true ->
   strict_eq (clamp Num.one Num.pos_zero Num.one) Num.one = true /\
   (is_zero Num.one = false -> clamp Num.one Num.pos_zero Num.one = Num.one)).
Proof.
  apply (clamp_within_bounds Num.one Num.pos_zero Num.one); reflexivity.
Defined.

(** C9 as stated fails for [num = NaN], which is a number: [Math.max] and
    [Math.min] propagate it, and no comparison with NaN holds. *)
Lemma clamp_NaN_escapes :
  le pos_zero one = true /\
  clamp NaN pos_zero one = NaN /\
  le pos_zero (clamp NaN pos_zero one) = false /\
  le (clamp NaN pos_zero one) one = false.
Proof. repeat split. Qed.

End ClampProps.

(** ** Deep clone (C10) *)

(** Copying the properties of an object one by one into the properties
    gathered so far appends them, when the keys are fresh, distinct and
    none is [__proto__]. *)
Lemma clone_properties (props acc : list (string * value)) :
  distinct_keys props -> no_proto_key props ->
  (forall k, In k (map fst acc) -> ~ In k (map fst props)) ->
  Forall (fun kv => deepClone (snd kv) = snd kv) props ->
  fold_left (fun cloned kv => obj_set cloned (fst kv) (deepClone (snd kv))) props acc
  = acc ++ props.
Proof.
  unfold distinct_keys, no_proto_key.
  revert acc. induction props as [|[k v] props IH]; intros acc Hnd Hnp Hacc Hfix.
  - cbn. now rewrite app_nil_r.
  - cbn [fold_left fst snd]. cbn [map fst] in Hnd, Hnp, Hacc.
    apply NoDup_cons in Hnd as [Hk Hnd].
    apply Forall_cons in Hfix as [Hv Hfix]. cbn [snd] in Hv.
    rewrite Hv, obj_set_fresh.
    + rewrite IH; try assumption.
      * now rewrite <- app_assoc.
      * intros Hin. apply Hnp. now right.
      * intros k'. rewrite map_app, in_app_iff. cbn.
        intros [Hin|[<-|[]]] Hin'.
        -- apply (Hacc k' Hin). now right.
        -- apply Hk. now apply list_elem_of_In.
    + intros ->. apply Hnp. now left.
    + intros Hin. apply (Hacc k Hin). now left.
Qed.

(** What C10 says holds of the values in which no object owns a property
    named [__proto__]: the clone is the same tree, that is, primitives,
    [null] and functions are returned as they are, a date yields a date of
    the same time value, an array the clones of its elements in order and
    an object the same keys with the clones of their values. *)
Lemma deepClone_plain_data (x : value) :
  plain_data x -> deepClone x = x.
Proof.
  induction x as [| |b|n|s|f|t|items IH|props IH] using value_ind';
    intros Hplain; try reflexivity.
  - inversion Hplain as [| | | | | | |items' Hitems|]; subst.
    cbn [deepClone]. f_equal.
    induction items as [|x items IHitems]; [reflexivity|].
    apply Forall_cons in IH as [IHx IH].
    apply Forall_cons in Hitems as [Hx Hitems].
    cbn [map]. rewrite IHx by assumption. f_equal.
    apply IHitems; [assumption | now constructor | assumption].
  - inversion Hplain as [| | | | | | | |props' Hnd Hnp Hvals]; subst.
    cbn [deepClone]. f_equal.
    rewrite clone_properties; try assumption; [reflexivity | easy |].
    apply Forall_forall. intros kv Hin.
    apply (proj1 (Forall_forall _ _) IH kv Hin).
    apply (proj1 (Forall_forall _ _) Hvals kv Hin).
Qed.

(** C10 fails for an object that owns a property named [__proto__] (as
    [JSON.parse] of such a text yields): the assignment [cloned[key] = ...]
    runs the setter inherited from [Object.prototype] and creates no own
    property, so the clone lacks the key. *)
Theorem deepClone_loses_own_proto_key :
  deepClone (VObj [("__proto__", VNum Num.one); ("a", VNull)]) = VObj [("a", VNull)].
Proof. reflexivity. Qed.

(** The guards of the source, in its order, select the cases. *)
Lemma deepClone_guards (obj : value) :
  (is_null obj || negb (typeof obj =? "object") = true -> deepClone obj = obj) /\
  (instanceof_Date obj = true -> exists t, obj = VDate t /\ deepClone obj = VDate t) /\
  (Array_isArray obj = true ->
   exists items, obj = VArr items /\ deepClone obj = VArr (map deepClone items)).
Proof.
  destruct obj; cbn; repeat split; try discriminate; eauto.
Qed.

(** ** Memoization (C1) *)

Section MemoizeOnce.

Variable Number_toString : Num.number -> string.
Variable Date_toISOString : Num.number -> string.
Variable P : Num.number -> Prop.
Hypothesis numerals : numerals_faithful Number_toString P.
Variable fn : list value -> value.

Local Abbreviation key := (cache_key Number_toString Date_toISOString).
Local Abbreviation run := (memo_run Number_toString Date_toISOString fn).
Local Abbreviation exact := (json_exact P).


End MemoizeOnce.



(** ** Throttling *)

Lemma spaced_snoc (wait t : Z) (log : list (Z * list value)) (c : Z * list value) :
  spaced wait t log ->
  (wait <= fst c - List.last (map fst log) t)%Z ->
  spaced wait t (log ++ [c]).
Proof.
  revert t. induction log as [|c' log IH]; intros t Hlog Hc.
  - cbn in *. auto.
  - destruct Hlog as [Hc' Hlog]. cbn [app spaced]. split; [assumption|].
    apply IH; [assumption|].
    cbn [map] in Hc. now rewrite last_cons_default in Hc.
Qed.

(** What a wrapper keeps: [lastCall] is the time of the latest call that
    reached [func] (0 when there is none), and those calls are [wait] or
    more apart. *)
Definition throttle_inv (wait : Z) (st : throttle_state) : Prop :=
  lastCall st = List.last (map fst (executed st)) 0%Z /\
  spaced wait 0 (executed st).

Lemma throttled_inv (func : list value -> value) (wait : Z)
    (st : throttle_state) (call : Z * list value) :
  throttle_inv wait st -> throttle_inv wait (snd (throttled func wait st call)).
Proof.
  intros [Hlast Hspaced]. unfold throttled.
  destruct (wait <=? fst call - lastCall st)%Z eqn:Hgo; [|now split].
  apply Z.leb_le in Hgo. split; cbn [snd lastCall executed].
  - rewrite map_app. cbn [map]. now rewrite List.last_last.
  - apply spaced_snoc; [assumption|]. now rewrite <- Hlast.
Qed.

Lemma throttle_run_inv (func : list value -> value) (wait : Z)
    (calls : list (Z * list value)) :
  forall st, throttle_inv wait st ->
             throttle_inv wait (snd (throttle_run func wait st calls)).
Proof.
  induction calls as [|call calls IH]; intros st Hst; [exact Hst|].
  cbn [throttle_run].
  pose proof (throttled_inv func wait st call Hst) as Hst'.
  destruct (throttled func wait st call) as [r st'].
  specialize (IH st' Hst').
  now destruct (throttle_run func wait st' calls) as [rs st''].
Qed.

(** X1: whatever the calls and their times, the calls that reach [func] are
    [wait] milliseconds or more apart, and the first of them comes at a
    time of at least [wait]: [lastCall] starts at 0, not at the time the
    wrapper is made. *)
Theorem throttle_executions_spaced (func : list value -> value) (wait : Z)
    (calls : list (Z * list value)) :
  spaced wait 0 (executed (snd (throttle_run func wait throttle_new calls))).
Proof.
  apply (throttle_run_inv func wait calls throttle_new). now split.
Qed.

(** X2: calls that come less than [wait] after the latest call that reached
    [func] are dropped, not queued: each returns [undefined], [func] is not
    invoked, and the state is as before. *)
Theorem throttle_drops_calls_in_window (func : list value -> value) (wait : Z)
    (st : throttle_state) (calls : list (Z * list value)) :
  Forall (fun c => (fst c - lastCall st < wait)%Z) calls ->
  throttle_run func wait st calls = (map (fun _ => VUndefined) calls, st).
Proof.
  induction 1 as [|call calls Hcall _ IH]; [reflexivity|].
  cbn [throttle_run map]. unfold throttled.
  rewrite (proj2 (Z.leb_gt _ _)) by lia. now rewrite IH.
Qed.

Lemma throttle_drops_calls_in_window_witness :
  throttle_run (fun args => VArr args) 100
    {| lastCall := 1000; executed := [(1000, [VStr "a"])]%Z |}
    [(1010, [VStr "b"]); (1099, [VStr "c"])]%Z
  = (map (fun _ => VUndefined) [(1010, [VStr "b"]); (1099, [VStr "c"])]%Z,
     {| lastCall := 1000; executed := [(1000, [VStr "a"])]%Z |}).
Proof.
  apply (throttle_drops_calls_in_window (fun args => VArr args) 100
           {| lastCall := 1000; executed := [(1000, [VStr "a"])]%Z |}).
  repeat constructor.
Defined.

(** A call that comes [wait] or more after the latest call that reached
    [func] reaches [func] itself and returns its result. *)
Example throttle_three_calls :
  throttle_run (fun args => VArr args) 100 throttle_new
    [(1000, [VStr "a"]); (1050, [VStr "b"]); (1100, [VStr "c"])]%Z
  = ([VArr [VStr "a"]; VUndefined; VArr [VStr "c"]],
     {| lastCall := 1100; executed := [(1000, [VStr "a"]); (1100, [VStr "c"])]%Z |}).
Proof. reflexivity. Qed.

(** ** Debouncing, turn by turn *)

(** A call in a turn of its own, as [debounced] has it, is the host
    running its timers and then the call. *)
Lemma debounced_is_timers_then_call (wait : Z) (st : event_loop * option nat)
    (c : Z * list value) :
  debounced wait st c
  = debounce_step wait (debounce_step wait st (RunTimers (fst c)))
                  (CallWrapper (fst c) (snd c)).
Proof. reflexivity. Qed.

(** At most the timer of the latest call is pending. *)
Definition own_timer_at_most (st : event_loop * option nat) : Prop :=
  timers (fst st) = [] \/
  exists tm : timer, timers (fst st) = [tm] /\ snd st = Some (timer_id tm).

(** After a call exactly its timer is pending, whatever the clock read
    at the calls before. *)
Lemma debounced_call_pending (wait t : Z) (args : list value)
    (st : event_loop * option nat) :
  own_timer_at_most st ->
  let st' := debounced_call wait st t args in
  (exists id : nat,
      snd st' = Some id /\
      timers (fst st') = [{| timer_id := id; timer_due := t + wait; timer_args := args |}]) /\
  invoked (fst st') = invoked (fst st).
Proof.
  intros Hst. unfold own_timer_at_most in Hst.
  destruct st as [w timeout]. cbn [fst snd] in *.
  unfold debounced_call. cbn [fst snd].
  assert (Hclear : timers (clearTimeout (clock_reads t w) timeout) = []).
  { destruct Hst as [Hnone|(tm & Hone & ->)].
    - destruct timeout as [id|]; cbn; now rewrite Hnone.
    - cbn. rewrite Hone. cbn. now rewrite Nat.eqb_refl. }
  unfold setTimeout. cbn [fst snd timers invoked]. rewrite Hclear. cbn [insert_timer].
  split.
  - eexists. split; [reflexivity|]. f_equal. f_equal. now destruct timeout.
  - now destruct timeout.
Qed.

Lemma debounced_calls_pending (wait : Z) (calls : list (Z * list value)) :
  forall (st : event_loop * option nat) (last : Z * list value),
    own_timer_at_most st ->
    let st' := fold_left (debounce_step wait)
                 (map (fun c => CallWrapper (fst c) (snd c)) (calls ++ [last])) st in
    (exists id : nat,
        snd st' = Some id /\
        timers (fst st') = [{| timer_id := id; timer_due := fst last + wait;
                               timer_args := snd last |}]) /\
    invoked (fst st') = invoked (fst st).
Proof.
  induction calls as [|c calls IH]; intros st last Hst.
  - cbn [app map fold_left debounce_step]. now apply debounced_call_pending.
  - cbn [app map fold_left debounce_step].
    destruct (debounced_call_pending wait (fst c) (snd c) st Hst) as [(id & Hid & Htm) Hinv].
    specialize (IH (debounced_call wait st (fst c) (snd c)) last).
    cbn zeta in IH |- *. rewrite <- Hinv. apply IH.
    right. eexists. split; [exact Htm | exact Hid].
Qed.

Lemma debounce_turns_fire (wait : Z) (turns : list turn) :
  forall st : event_loop * option nat,
    timers (fst st) = [] ->
    Forall (fun tn => (fst (final tn) + wait <= timers_run tn)%Z) turns ->
    let st' := fold_left (debounce_step wait) (flat_map events_of_turn turns) st in
    timers (fst st') = [] /\
    invoked (fst st')
    = invoked (fst st) ++ map (fun tn => (fst (final tn) + wait, snd (final tn))%Z) turns.
Proof.
  induction turns as [|tn turns IH]; intros st Hst Hrun.
  - cbn. now rewrite app_nil_r.
  - apply Forall_cons in Hrun as [Hdue Hrun].
    cbn [flat_map]. rewrite fold_left_app.
    change (events_of_turn tn)
      with (map (fun c => CallWrapper (fst c) (snd c)) (earlier tn ++ [final tn])
            ++ [RunTimers (timers_run tn)]).
    rewrite fold_left_app. cbn [fold_left debounce_step].
    destruct (debounced_calls_pending wait (earlier tn) st (final tn) (or_introl Hst))
      as [(id & Hid & Htm) Hinv].
    cbn zeta in Hid, Htm, Hinv.
    set (st1 := fold_left (debounce_step wait)
                  (map (fun c => CallWrapper (fst c) (snd c)) (earlier tn ++ [final tn])) st) in *.
    assert (Hfired : timers (run_until (timers_run tn) (fst st1)) = [] /\
                     invoked (run_until (timers_run tn) (fst st1))
                     = invoked (fst st) ++ [(fst (final tn) + wait, snd (final tn))%Z]).
    { unfold run_until. cbn [timers invoked]. rewrite Htm, Hinv.
      cbn [List.filter timer_due timer_args map].
      rewrite (proj2 (Z.leb_le _ _) Hdue). cbn [negb map timer_due timer_args]. now split. }
    destruct Hfired as [Hnone Hlog].
    specialize (IH (run_until (timers_run tn) (fst st1), snd st1) Hnone Hrun).
    cbn zeta in IH |- *. cbn [fst snd] in IH.
    destruct IH as [IHt IHi]. split; [exact IHt|].
    rewrite IHi, Hlog. cbn [map]. now rewrite <- app_assoc.
Qed.

(** X3: calls of a debounced wrapper come in stretches during which the
    host runs no timer (the calls of one turn of the event loop); after
    each stretch the host runs its timers, the timer of the last call of
    the stretch being due by then.  For a delay that the host takes as
    given, [func] is invoked once for each stretch, with the arguments of
    its last call and due [wait] milliseconds after that call, whatever
    the clock read at the earlier calls of the stretch; no timer is left
    pending. *)
Theorem debounce_fires_last_call_of_each_turn (wait start : Z) (turns : list turn) :
  (1 <= wait <= 2147483647)%Z ->
  Forall (fun tn => (fst (final tn) + wait <= timers_run tn)%Z) turns ->
  let w := fst (debounce_events wait start (flat_map events_of_turn turns)) in
  invoked w = map (fun tn => (fst (final tn) + wait, snd (final tn))%Z) turns /\
  timers w = [].
Proof.
  intros _ Hrun. unfold debounce_events.
  destruct (debounce_turns_fire wait turns (event_loop_at start, None) eq_refl Hrun)
    as [Ht Hi].
  cbn zeta in *. split; [exact Hi | exact Ht].
Qed.

Lemma debounce_fires_last_call_of_each_turn_witness :
  let turns :=
    [ {| earlier := [(0, [VStr "a"]); (250, [VStr "b"])]; final := (250, [VStr "c"]);
         timers_run := 350 |};
      {| earlier := []; final := (400, [VStr "d"]); timers_run := 500 |} ]%Z in
  let w := fst (debounce_events 100 0 (flat_map events_of_turn turns)) in
  invoked w = map (fun tn => (fst (final tn) + 100, snd (final tn))%Z) turns /\
  timers w = [].
Proof.
  intros turns.
  apply (debounce_fires_last_call_of_each_turn 100 0 turns); [lia|].
  repeat constructor; cbn; lia.
Defined.

(** Two calls of one turn, more than [wait] apart by the clock: the first
    never fires. *)
Example debounce_two_calls_one_turn :
  invoked (fst (debounce_events 100 0
                  [CallWrapper 0 [VStr "a"]; CallWrapper 250 [VStr "b"]; RunTimers 350]))
  = [(350, [VStr "b"])]%Z.
Proof. reflexivity. Qed.

(** ** [unique], [without] and [includes] *)

Section Arrays.

Variable same_reference : value -> value -> bool.

Local Abbreviation includes_ := (Array_includes same_reference).
Local Abbreviation add := (Set_add same_reference).

Lemma Array_includes_app (l1 l2 : list value) (x : value) :
  includes_ (l1 ++ l2) x = includes_ l1 x || includes_ l2 x.
Proof. unfold Array_includes. apply existsb_app. Qed.

Lemma no_repeat_from_snoc (l : list value) :
  forall (seen : list value) (x : value),
    no_repeat_from same_reference seen l ->
    includes_ (seen ++ l) x = false ->
    no_repeat_from same_reference seen (l ++ [x]).
Proof.
  induction l as [|y l IH]; intros seen x Hl Hx.
  - rewrite app_nil_r in Hx. cbn. auto.
  - destruct Hl as [Hy Hl]. cbn [app no_repeat_from]. split; [assumption|].
    apply IH; [assumption|]. now rewrite <- app_assoc.
Qed.

Lemma Set_value_idempotent (x : value) : Set_value (Set_value x) = Set_value x.
Proof.
  destruct x as [| |b|n|s|f|t|items|props]; try reflexivity.
  cbn. destruct (Num.is_neg_zero n) eqn:Hn; cbn; [reflexivity | now rewrite Hn].
Qed.

(** [-0] and [+0] are the same value to [includes] and to [Set]. *)
Lemma SameValueZero_Set_value (item x : value) :
  SameValueZero same_reference item (Set_value x) = SameValueZero same_reference item x.
Proof.
  destruct x as [| |b|n|s|f|t|items|props]; try reflexivity.
  cbn. destruct (Num.is_neg_zero n) eqn:Hn; [|reflexivity].
  destruct n as [[]| | |]; try discriminate.
  now destruct item as [| |b|m|s|f|t|items|props].
Qed.

Lemma Array_includes_Set_value (l : list value) (x : value) :
  includes_ l (Set_value x) = includes_ l x.
Proof.
  induction l as [|item l IH]; [reflexivity|].
  cbn [Array_includes existsb]. rewrite SameValueZero_Set_value. f_equal. exact IH.
Qed.

Lemma Set_add_no_repeat (set : list value) (x : value) :
  no_repeat same_reference set -> no_repeat same_reference (add set x).
Proof.
  intros Hset. unfold Set_add. cbn zeta.
  destruct (includes_ set (Set_value x)) eqn:Hx; [assumption|].
  now apply no_repeat_from_snoc.
Qed.

Lemma Set_add_fold_no_repeat (items : list value) :
  forall set, no_repeat same_reference set ->
              no_repeat same_reference (fold_left add items set).
Proof.
  induction items as [|x items IH]; intros set Hset; [assumption|].
  cbn [fold_left]. apply IH. now apply Set_add_no_repeat.
Qed.

(** What a [Set] holds is taken in as it is when added again in order. *)
Lemma Set_add_fold_fresh (l : list value) :
  forall seen, no_repeat_from same_reference seen l ->
               Forall (fun x => Set_value x = x) l ->
               fold_left add l seen = seen ++ l.
Proof.
  induction l as [|x l IH]; intros seen Hl Hcanon.
  - cbn. now rewrite app_nil_r.
  - destruct Hl as [Hx Hl]. apply Forall_cons in Hcanon as [Hcx Hcanon].
    cbn [fold_left]. unfold Set_add at 2. cbn zeta.
    rewrite Hcx, Hx. rewrite IH by assumption. now rewrite <- app_assoc.
Qed.

Lemma Set_add_fold_stored (items : list value) :
  forall set, Forall (fun x => Set_value x = x) set ->
              Forall (fun x => Set_value x = x) (fold_left add items set).
Proof.
  induction items as [|y items IH]; intros set Hset; [assumption|].
  cbn [fold_left]. apply IH. unfold Set_add. cbn zeta.
  destruct (includes_ set (Set_value y)); [assumption|].
  apply Forall_app. split; [assumption|].
  constructor; [apply Set_value_idempotent | constructor].
Qed.

Lemma Set_add_includes (set : list value) (z x : value) :
  includes_ set x = true -> includes_ (add set z) x = true.
Proof.
  intros H. unfold Set_add. cbn zeta. destruct (includes_ set (Set_value z)); [exact H|].
  now rewrite Array_includes_app, H.
Qed.

Lemma Set_add_fold_includes (items : list value) :
  forall (set : list value) (x : value),
    includes_ set x = true -> includes_ (fold_left add items set) x = true.
Proof.
  induction items as [|z items IH]; intros set x H; [exact H|].
  cbn [fold_left]. apply IH. now apply Set_add_includes.
Qed.

Lemma Set_add_fold_keeps (items : list value) :
  forall (set : list value) (x : value),
    In x set -> In x (fold_left add items set).
Proof.
  induction items as [|z items IH]; intros set x H; [exact H|].
  cbn [fold_left]. apply IH. unfold Set_add. cbn zeta.
  destruct (includes_ set (Set_value z)); [exact H|].
  apply in_app_iff. now left.
Qed.

Lemma Set_add_fold_members (items : list value) :
  forall set,
    (forall x, In x (fold_left add items set) ->
               In x set \/ exists y, In y items /\ x = Set_value y) /\
    (forall x, In x items ->
               In (Set_value x) (fold_left add items set) \/
               includes_ (fold_left add items set) x = true).
Proof.
  induction items as [|y items IH]; intros set.
  - cbn. split; [auto | intros x []].
  - cbn [fold_left]. destruct (IH (add set y)) as [Hsub Hrep]. split.
    + intros x Hx. destruct (Hsub x Hx) as [H|(z & Hz & ->)].
      * unfold Set_add in H. cbn zeta in H.
        destruct (includes_ set (Set_value y)); [now left|].
        apply in_app_iff in H as [H|[<-|[]]]; [now left|].
        right. exists y. split; [now left | reflexivity].
      * right. exists z. split; [now right | reflexivity].
    + intros x [<-|H]; [|now apply Hrep].
      destruct (includes_ set (Set_value y)) eqn:Hy.
      * right. apply Set_add_fold_includes, Set_add_includes.
        now rewrite <- Array_includes_Set_value.
      * left. apply Set_add_fold_keeps. unfold Set_add. cbn zeta. rewrite Hy.
        apply in_app_iff. right. now left.
Qed.

(** X4: [unique] keeps, in order, the first of every group of same values,
    as a [Set] stores it ([-0] as [+0]): nothing in the result repeats a
    value before it, every element of the result is an element of the
    array as stored, every element of the array is in the result as
    stored or is the same value as one that is, and [unique] of the
    result is the result again. *)
Theorem unique_idempotent (items : list value) :
  exists u : list value,
    unique same_reference (VArr items) = Normal (VArr u) /\
    no_repeat same_reference u /\
    (forall x, In x u -> exists y, In y items /\ x = Set_value y) /\
    (forall x, In x items -> In (Set_value x) u \/ includes_ u x = true) /\
    unique same_reference (VArr u) = Normal (VArr u).
Proof.
  exists (fold_left add items []).
  assert (Hnr : no_repeat same_reference (fold_left add items []))
    by (apply Set_add_fold_no_repeat; exact I).
  assert (Hstored : Forall (fun x => Set_value x = x) (fold_left add items []))
    by (apply Set_add_fold_stored; constructor).
  destruct (Set_add_fold_members items []) as [Hsub Hrep].
  split; [reflexivity|]. split; [assumption|]. split; [|split].
  - intros x Hx. now destruct (Hsub x Hx) as [[]|H].
  - exact Hrep.
  - unfold unique. cbn. now rewrite (Set_add_fold_fresh _ [] Hnr Hstored).
Qed.

(** A negative zero comes back as the positive one. *)
Example unique_negative_zero :
  unique same_reference (VArr [VNum Num.neg_zero; VNum Num.pos_zero])
  = Normal (VArr [VNum Num.pos_zero]).
Proof. reflexivity. Qed.

(** X5: removing values in two steps is removing them in one: [without] of
    [without(arr, ...vs1)] and [vs2] is [without(arr, ...vs1, ...vs2)],
    also when [arr] is no array. *)
Theorem without_without (arr : value) (vs1 vs2 : list value) :
  (r ← without same_reference arr vs1; without same_reference r vs2)
  = without same_reference arr (vs1 ++ vs2).
Proof.
  destruct arr as [| |b|n|s|f|t|items|props]; try reflexivity.
  unfold without. cbn. do 2 f_equal.
  induction items as [|x items IH]; [reflexivity|].
  cbn [List.filter]. rewrite Array_includes_app.
  destruct (includes_ vs1 x); cbn [negb orb List.filter]; [exact IH|].
  destruct (includes_ vs2 x); cbn [negb]; [exact IH | now rewrite IH].
Qed.

Lemma SameValueZero_sym (x y : value) :
  (forall a b, same_reference a b = same_reference b a) ->
  SameValueZero same_reference x y = SameValueZero same_reference y x.
Proof.
  intros Hsym.
  destruct x as [| |b|n|s|f|t|items|props], y as [| |b'|n'|s'|f'|t'|items'|props'];
    cbn; try reflexivity; try apply Hsym.
  - now destruct b, b'.
  - rewrite (andb_comm (Num.is_NaN n)). f_equal.
    unfold Num.strict_eq, SFeqb. rewrite (ClampProps.SFcompare_antisym n' n).
    now destruct (SFcompare n' n) as [[]|].
  - apply String.eqb_sym.
Qed.

(** X6: what [without] has removed, [includes] does not find, provided the
    identity of objects is symmetric, as it is. *)
Theorem without_then_includes (arr v : value) (vs : list value) :
  (forall a b, same_reference a b = same_reference b a) ->
  In v vs ->
  (r ← without same_reference arr vs; includes same_reference r v) = Normal (VBool false).
Proof.
  intros Hsym Hv.
  destruct arr as [| |b|n|s|f|t|items|props]; try reflexivity.
  unfold without, includes. cbn. do 2 f_equal.
  induction items as [|x items IH]; [reflexivity|].
  cbn [List.filter]. destruct (includes_ vs x) eqn:Hx; cbn [negb]; [exact IH|].
  cbn [Array_includes existsb]. fold (includes_ (List.filter (fun item => negb (includes_ vs item)) items) v).
  rewrite IH, orb_false_r.
  rewrite SameValueZero_sym by assumption.
  unfold Array_includes in Hx.
  destruct (SameValueZero same_reference v x) eqn:Hvx; [|reflexivity].
  rewrite <- Hx. symmetry. apply existsb_exists. now exists v.
Qed.

End Arrays.

Lemma without_then_includes_witness :
  (r ← without (fun _ _ => false) (VArr [VStr "a"; VStr "b"; VStr "a"]) [VStr "a"];
   includes (fun _ _ => false) r (VStr "a")) = Normal (VBool false).
Proof.
  apply (without_then_includes (fun _ _ => false)); [reflexivity | now left].
Defined.

(** ** [flatten] *)

Lemma fold_left_concat {A : Type} (f : A -> list value) (items : list A) (acc : list value) :
  fold_left (fun acc x => acc ++ f x) items acc = acc ++ flat_map f items.
Proof.
  revert acc. induction items as [|x items IH]; intros acc; cbn.
  - now rewrite app_nil_r.
  - now rewrite IH, <- app_assoc.
Qed.

(** The array returned for an array: its elements with the arrays among
    them replaced by their own flattening one level less deep, or a copy
    when the depth is not positive. *)
Lemma flatten_elements_array (items : list value) (d : depth) :
  flatten_elements (VArr items) d
  = if depth_positive d
    then flat_map (fun val => match val with
                              | VArr _ => flatten_elements val (depth_pred d)
                              | _ => [val]
                              end) items
    else items.
Proof.
  cbn [flatten_elements]. destruct (depth_positive d); [|reflexivity].
  now rewrite fold_left_concat.
Qed.

Lemma flat_map_ext_Forall {A B : Type} (f g : A -> list B) (l : list A) :
  Forall (fun x => f x = g x) l -> flat_map f l = flat_map g l.
Proof. induction 1 as [|x l Hx _ IH]; [reflexivity|]. cbn. now rewrite Hx, IH. Qed.

(** *** No element is lost or moved *)

(** X7: whatever the depth, the leaves of the result are the leaves of the
    array, in the same order. *)
Theorem flatten_keeps_leaves (arr : value) (d : depth) :
  Array_isArray arr = true ->
  leaves (VArr (flatten_elements arr d)) = leaves arr.
Proof.
  revert d. induction arr as [| |b|n|s|f|t|items IH|props IH] using value_ind';
    intros d Harr; try discriminate Harr.
  rewrite flatten_elements_array. destruct (depth_positive d); [|reflexivity].
  cbn [leaves]. clear Harr.
  induction IH as [|x items Hx _ IHitems]; [reflexivity|].
  cbn [flat_map]. rewrite flat_map_app, IHitems. f_equal.
  destruct x; try reflexivity.
  apply (Hx (depth_pred d)). reflexivity.
Qed.

Lemma flatten_keeps_leaves_witness :
  leaves (VArr (flatten_elements (VArr [num 1; VArr [num 2; VArr [num 3]]]) (Levels 1)))
  = leaves (VArr [num 1; VArr [num 2; VArr [num 3]]]).
Proof.
  apply (flatten_keeps_leaves (VArr [num 1; VArr [num 2; VArr [num 3]]]) (Levels 1)).
  reflexivity.
Defined.

(** *** Unbounded depth *)

Lemma leaves_no_array (v : value) :
  Forall (fun x => Array_isArray x = false) (leaves v).
Proof.
  induction v as [| |b|n|s|f|t|items IH|props IH] using value_ind';
    try (repeat constructor).
  cbn [leaves]. induction IH as [|x items Hx _ IHitems]; [constructor|].
  cbn [flat_map]. apply Forall_app. now split.
Qed.

Lemma flatten_elements_Infinity (arr : value) :
  Array_isArray arr = true ->
  flatten_elements arr Infinity = leaves arr.
Proof.
  induction arr as [| |b|n|s|f|t|items IH|props IH] using value_ind';
    intros Harr; try discriminate Harr.
  rewrite flatten_elements_array. cbn [depth_positive depth_pred leaves].
  apply flat_map_ext_Forall.
  eapply Forall_impl; [exact IH|]. intros x Hx. destruct x; try reflexivity.
  now apply Hx.
Qed.

Lemma flatten_elements_flat (l : list value) (d : depth) :
  Forall (fun x => Array_isArray x = false) l ->
  flatten_elements (VArr l) d = l.
Proof.
  intros Hl. rewrite flatten_elements_array. destruct (depth_positive d); [|reflexivity].
  induction Hl as [|x l Hx _ IH]; [reflexivity|].
  cbn [flat_map]. rewrite IH. now destruct x.
Qed.

(** X8: with depth [Infinity] the result holds the leaves of the array and no
    array; flattening it again, to whatever depth, returns it as it is. *)
Theorem flatten_Infinity_is_flat (items : list value) (d : option depth) :
  exists flat : list value,
    flatten (VArr items) (Some Infinity) = Normal (VArr flat) /\
    flat = leaves (VArr items) /\
    Forall (fun x => Array_isArray x = false) flat /\
    flatten (VArr flat) d = Normal (VArr flat).
Proof.
  exists (leaves (VArr items)). unfold flatten. cbn [default from_option id].
  rewrite flatten_elements_Infinity by reflexivity. split; [reflexivity|]. split; [reflexivity|].
  split; [apply leaves_no_array|].
  now rewrite flatten_elements_flat by apply leaves_no_array.
Qed.

(** *** Depths add up *)







(** *** Chunks flatten back *)

(** X10: flattening the chunks of an array by one level, the default, gives the
    array back. *)
Theorem flatten_chunk (fuel : nat) (items : list value) (size : nat) :
  (0 < size)%nat ->
  (length items < fuel)%nat ->
  (r ← chunk fuel (VArr items) (Some size); flatten r None) = Normal (VArr items).
Proof.
  intros Hsize Hfuel.
  destruct (chunk_loop_spec fuel items size 0 [] Hsize) as (chunks & Hrun & Hcat & _);
    [lia | lia | reflexivity | constructor |].
  unfold chunk. cbn in Hrun |- *. rewrite Hrun. cbn.
  unfold flatten. cbn [default from_option id]. do 2 f_equal.
  rewrite flatten_elements_array. cbn [depth_positive Z.ltb Z.compare].
  rewrite <- Hcat. clear. induction chunks as [|c chunks IH]; [reflexivity|].
  cbn [map flat_map concat]. now rewrite IH.
Qed.

Lemma flatten_chunk_witness :
  (r ← chunk 6 (VArr [num 1; num 2; num 3; num 4; num 5]) (Some 2%nat); flatten r None)
  = Normal (VArr [num 1; num 2; num 3; num 4; num 5]).
Proof.
  apply (flatten_chunk 6 [num 1; num 2; num 3; num 4; num 5] 2); cbn; lia.
Defined.

(** ** [times] *)

(** After [i] rounds the first [i] places hold the results and the rest
    are still holes. *)
Lemma times_loop_spec (fuel n : nat) (iteratee : nat -> value) :
  forall i : nat,
    (i <= n)%nat ->
    (n - i < fuel)%nat ->
    times_loop fuel n iteratee i
      (map (fun k => Some (iteratee k)) (seq 0 i) ++ replicate (n - i) None)
    = Normal (map (fun k => Some (iteratee k)) (seq 0 n)).
Proof.
  induction fuel as [|fuel IH]; intros i Hi Hfuel; [lia|].
  cbn [times_loop]. destruct (i <? n)%nat eqn:Hlt.
  - apply Nat.ltb_lt in Hlt.
    replace (<[i := Some (iteratee i)]>
               (map (fun k => Some (iteratee k)) (seq 0 i) ++ replicate (n - i) None))
      with (map (fun k => Some (iteratee k)) (seq 0 (S i)) ++ replicate (n - S i) None).
    + apply IH; lia.
    + rewrite seq_S, map_app. cbn [map Nat.add].
      replace (n - i)%nat with (S (n - S i)) by lia. cbn [replicate].
      rewrite <- app_assoc. cbn [app].
      symmetry. rewrite insert_app_r_alt by (rewrite length_map, length_seq; lia).
      rewrite length_map, length_seq, Nat.sub_diag. reflexivity.
  - apply Nat.ltb_ge in Hlt. assert (i = n) by lia. subst i.
    now rewrite Nat.sub_diag, app_nil_r.
Qed.

(** X11: [times(n, iteratee)] returns (given fuel beyond [n]) the array of the
    [n] results [iteratee(0)], ..., [iteratee(n - 1)], in which none of the
    holes [Array(n)] starts with is left, when [n] is below [2^32]; for a
    larger [n] it throws the RangeError of [Array(n)] and calls
    [iteratee] not once. *)
Theorem times_results (fuel n : nat) (iteratee : nat -> value) :
  (n < fuel)%nat ->
  times fuel n iteratee
  = if (Z.of_nat n <? 4294967296)%Z
    then Normal (map (fun k => Some (iteratee k)) (seq 0 n))
    else Throw RangeError.
Proof.
  intros Hfuel. unfold times, Array_of_length.
  destruct (Z.of_nat n <? 4294967296)%Z; [|reflexivity].
  unfold mbind, outcome_bind.
  rewrite <- (times_loop_spec fuel n iteratee 0); [|lia|lia].
  now rewrite Nat.sub_0_r.
Qed.

Lemma times_results_witness :
  times 6 5 (fun i => num (i * i))
  = Normal (map (fun k => Some (num (k * k))) (seq 0 5)).
Proof. apply (times_results 6 5 (fun i => num (i * i))). lia. Defined.

(** ** [kebabCase] *)

Lemma char_toLowerCase_facts (c : ascii) :
  is_upper_AZ (char_toLowerCase c) = false /\
  is_whitespace (char_toLowerCase c) = is_whitespace c /\
  char_toLowerCase (char_toLowerCase c) = char_toLowerCase c.
Proof. destruct c as [[] [] [] [] [] [] [] []]; repeat split. Qed.

Lemma hyphenate_spaces_no_whitespace (l : list ascii) (in_run : bool) :
  Forall (fun c => is_whitespace c = false) (hyphenate_spaces in_run l).
Proof.
  revert in_run. induction l as [|c l IH]; intros in_run; [constructor|].
  cbn [hyphenate_spaces]. destruct (is_whitespace c) eqn:Hc.
  - apply Forall_app. split; [|apply IH]. destruct in_run; repeat constructor.
  - constructor; [assumption | apply IH].
Qed.

Lemma hyphenate_spaces_none (l : list ascii) :
  Forall (fun c => is_whitespace c = false) l -> hyphenate_spaces false l = l.
Proof.
  induction 1 as [|c l Hc _ IH]; [reflexivity|].
  cbn [hyphenate_spaces]. now rewrite Hc, IH.
Qed.

Lemma hyphenate_camel_none (l : list ascii) :
  Forall (fun c => is_upper_AZ c = false) l -> hyphenate_camel l = l.
Proof.
  induction 1 as [|a l Ha Hl IH]; [reflexivity|].
  cbn [hyphenate_camel]. destruct Hl as [|b l Hb Hl]; [reflexivity|].
  rewrite Hb, andb_false_r. now rewrite IH.
Qed.

Lemma kebab_chars_clean (l : list ascii) :
  Forall (fun c => is_upper_AZ c = false) (kebab_chars l) /\
  Forall (fun c => is_whitespace c = false) (kebab_chars l).
Proof.
  unfold kebab_chars. split; apply List.Forall_forall; intros c Hc;
    apply in_map_iff in Hc as (c' & <- & Hc').
  - apply char_toLowerCase_facts.
  - destruct (char_toLowerCase_facts c') as (_ & -> & _).
    apply (proj1 (List.Forall_forall _ _) (hyphenate_spaces_no_whitespace _ _) c' Hc').
Qed.

Lemma kebab_chars_idempotent (l : list ascii) :
  kebab_chars (kebab_chars l) = kebab_chars l.
Proof.
  destruct (kebab_chars_clean l) as [Hupper Hspace].
  unfold kebab_chars at 1.
  rewrite hyphenate_camel_none, hyphenate_spaces_none by assumption.
  unfold kebab_chars. rewrite map_map. apply map_ext. intros c.
  apply char_toLowerCase_facts.
Qed.

Lemma kebabCase_string (s : string) :
  kebabCase (VStr s) = Normal (VStr (of_chars (kebab_chars (chars s)))).
Proof. unfold kebabCase, kebab_chars, toLowerCase. cbn. now rewrite chars_of_chars. Qed.

(** X12: the result of [kebabCase] holds no capital letter A-Z and no white
    space, and [kebabCase] of it is itself again; this for every argument,
    a string or not. *)
Theorem kebabCase_idempotent (v : value) :
  exists r : string,
    kebabCase v = Normal (VStr r) /\
    Forall (fun c => is_upper_AZ c = false /\ is_whitespace c = false) (chars r) /\
    kebabCase (VStr r) = Normal (VStr r).
Proof.
  assert (Hstr : forall s, exists r : string,
             kebabCase (VStr s) = Normal (VStr r) /\
             Forall (fun c => is_upper_AZ c = false /\ is_whitespace c = false) (chars r) /\
             kebabCase (VStr r) = Normal (VStr r)).
  { intros s. exists (of_chars (kebab_chars (chars s))).
    split; [apply kebabCase_string|]. rewrite kebabCase_string, chars_of_chars.
    split; [|now rewrite kebab_chars_idempotent].
    destruct (kebab_chars_clean (chars s)) as [Hupper Hspace].
    apply List.Forall_forall. intros c Hc. split.
    - apply (proj1 (List.Forall_forall _ _) Hupper c Hc).
    - apply (proj1 (List.Forall_forall _ _) Hspace c Hc). }
  destruct v as [| |b|n|s|f|t|items|props]; try apply Hstr;
    exists ""; repeat split; constructor.
Qed.

(** ** [truncate] *)

Lemma String_length_append (s1 s2 : string) :
  String.length (s1 +:+ s2) = (String.length s1 + String.length s2)%nat.
Proof.
  induction s1 as [|c s1 IH]; [reflexivity|].
  change (S (String.length (s1 +:+ s2)) = S (String.length s1 + String.length s2)).
  now rewrite IH.
Qed.

Lemma String_length_substring (k : nat) (s : string) :
  (k <= String.length s)%nat -> String.length (String.substring 0 k s) = k.
Proof.
  revert s. induction k as [|k IH]; intros s Hk.
  - now destruct s.
  - destruct s as [|c s]; [cbn in Hk; lia|].
    cbn in *. rewrite IH; [reflexivity | lia].
Qed.

(** X13: a string within the limit is returned as it is.  A longer one is cut
    so that, when the suffix is no longer than the limit, the result has
    exactly [length] characters: the first [length - suffix.length] of the
    string, then the suffix. *)
Theorem truncate_length (s suffix : string) (n : Z) :
  exists r : string,
    truncate (VStr s) (Some n) (Some suffix) = Normal (VStr r) /\
    ((Z.of_nat (String.length s) <= n)%Z -> r = s) /\
    ((n < Z.of_nat (String.length s))%Z ->
     (Z.of_nat (String.length suffix) <= n)%Z ->
     r = String.substring 0 (Z.to_nat n - String.length suffix) s +:+ suffix /\
     Z.of_nat (String.length r) = n).
Proof.
  unfold truncate. cbn [default from_option id typeof]. cbn.
  destruct (Z.of_nat (String.length s) <=? n)%Z eqn:Hfit.
  - exists s. split; [reflexivity|]. apply Z.leb_le in Hfit. split; [reflexivity | lia].
  - apply Z.leb_gt in Hfit. eexists. split; [reflexivity|]. split; [lia|].
    intros _ Hsuffix. unfold String_slice, relative_index.
    rewrite (proj2 (Z.ltb_ge 0 0)) by lia.
    rewrite (proj2 (Z.ltb_ge (n - Z.of_nat (String.length suffix)) 0)) by lia.
    rewrite Z.min_l by lia. rewrite Z.min_l by lia. rewrite Z.sub_0_r.
    replace (Z.to_nat (n - Z.of_nat (String.length suffix)))
      with (Z.to_nat n - String.length suffix)%nat by lia.
    split; [reflexivity|].
    rewrite String_length_append, String_length_substring by lia. lia.
Qed.

(** A suffix longer than the limit makes the index of the cut negative,
    which [slice] counts from the end: the result is longer than the
    limit. *)
Example truncate_long_suffix :
  truncate (VStr "abcdefgh") (Some 2%Z) (Some "...") = Normal (VStr "abcdefg...").
Proof. reflexivity. Qed.

(** ** [isPalindrome], mirrored *)

Lemma normalize_reverse (s : string) :
  replace_non_az09 (toLowerCase (string_reverse s))
  = string_reverse (replace_non_az09 (toLowerCase s)).
Proof.
  unfold replace_non_az09, toLowerCase, string_reverse.
  rewrite !chars_of_chars. f_equal.
  rewrite map_rev. apply filter_rev.
Qed.

Lemma normalize_append (s1 s2 : string) :
  replace_non_az09 (toLowerCase (s1 +:+ s2))
  = replace_non_az09 (toLowerCase s1) +:+ replace_non_az09 (toLowerCase s2).
Proof.
  unfold replace_non_az09, toLowerCase.
  rewrite <- (of_chars_chars s1) at 1. rewrite <- (of_chars_chars s2) at 1.
  rewrite <- of_chars_app, !chars_of_chars, map_app, List.filter_app.
  apply of_chars_app.
Qed.

Lemma string_reverse_involutive (s : string) :
  string_reverse (string_reverse s) = s.
Proof.
  unfold string_reverse. now rewrite chars_of_chars, rev_involutive, of_chars_chars.
Qed.

Lemma string_reverse_append (s1 s2 : string) :
  string_reverse (s1 +:+ s2) = string_reverse s2 +:+ string_reverse s1.
Proof.
  unfold string_reverse.
  rewrite <- (of_chars_chars s1) at 1. rewrite <- (of_chars_chars s2) at 1.
  now rewrite <- of_chars_app, chars_of_chars, rev_app_distr, of_chars_app.
Qed.

Lemma isPalindrome_string (s : string) :
  isPalindrome (VStr s)
  = Normal (VBool (replace_non_az09 (toLowerCase s)
                   =? string_reverse (replace_non_az09 (toLowerCase s)))).
Proof. unfold isPalindrome. cbn. now rewrite split_reverse_join. Qed.

(** X14: a string read backwards is a palindrome exactly when the string is,
    and any string followed by itself read backwards is one. *)
Theorem isPalindrome_mirror (s : string) :
  isPalindrome (VStr (string_reverse s)) = isPalindrome (VStr s) /\
  isPalindrome (VStr (s +:+ string_reverse s)) = Normal (VBool true).
Proof.
  rewrite !isPalindrome_string. split.
  - rewrite normalize_reverse, string_reverse_involutive.
    now rewrite String.eqb_sym.
  - rewrite normalize_append, string_reverse_append, !normalize_reverse.
    rewrite string_reverse_involutive. now rewrite String.eqb_refl.
Qed.

(** ** [pick] and [omit], by key *)

Lemma lookup_prop_filter (keep : string -> bool) (key : string) (props : list (string * value)) :
  lookup_prop key (List.filter (fun kv => keep (fst kv)) props)
  = if keep key then lookup_prop key props else None.
Proof.
  induction props as [|[k v] props IH]; [now destruct (keep key)|].
  cbn [List.filter fst]. destruct (keep k) eqn:Hk; cbn [lookup_prop].
  - destruct (String.eqb_spec k key) as [->|Hne]; [now rewrite Hk | exact IH].
  - destruct (String.eqb_spec k key) as [->|Hne]; [now rewrite IH, Hk | exact IH].
Qed.

Lemma filter_own_keys (keep : string * value -> bool) (props : list (string * value)) :
  distinct_keys props -> no_proto_key props ->
  distinct_keys (List.filter keep props) /\ no_proto_key (List.filter keep props).
Proof.
  unfold distinct_keys, no_proto_key.
  induction props as [|[k v] props IH]; intros Hnd Hnp; [now split|].
  cbn [map fst] in Hnd, Hnp. apply NoDup_cons in Hnd as [Hk Hnd].
  destruct IH as [IHnd IHnp]; [assumption | intros H; apply Hnp; now right |].
  assert (Hsub : forall k', In k' (map fst (List.filter keep props)) -> In k' (map fst props)).
  { intros k' H. apply in_map_iff in H as (kv & <- & Hkv).
    apply filter_In in Hkv as [Hkv _]. apply in_map_iff. now exists kv. }
  cbn [List.filter]. destruct (keep (k, v)); [|now split]. split.
  - cbn [map fst]. apply NoDup_cons. split; [|assumption].
    intros Hin%list_elem_of_In. apply Hk, list_elem_of_In. auto.
  - cbn [map fst]. intros [Hk'|Hin]; [apply Hnp; now left | now apply IHnp].
Qed.

Lemma lookup_prop_picked (props : list (string * value)) (key : string) (ks : list string) :
  lookup_prop key (omap (fun k => pair k <$> lookup_prop k props) ks)
  = if existsb (String.eqb key) ks then lookup_prop key props else None.
Proof.
  induction ks as [|k ks IH]; [reflexivity|].
  cbn [existsb]. cbn. destruct (String.eqb_spec key k) as [->|Hne]; cbn [orb].
  - destruct (lookup_prop k props) as [v|] eqn:Hv; cbn.
    + now rewrite String.eqb_refl.
    + rewrite IH. now destruct (existsb (String.eqb k) ks).
  - destruct (lookup_prop k props) as [v|]; cbn; [|exact IH].
    destruct (String.eqb_spec k key) as [->|_]; [now destruct Hne | exact IH].
Qed.

(** X15: [pick] and [omit] split an object between them.  For an object with
    distinct keys, none named [__proto__], and distinct keys asked for,
    none naming a member of [Object.prototype]: a key asked for reads in
    the picked object as in the object and is missing from the other; any
    other key reads in the other as in the object and is missing from the
    picked one. *)
Theorem pick_omit_partition
    (exotic_properties : value -> list (string * value))
    (props : list (string * value)) (ks : list string) :
  distinct_keys props -> no_proto_key props ->
  NoDup ks ->
  (forall k, In k ks -> has_key k Object_prototype = false) ->
  exists picked omitted : list (string * value),
    pick exotic_properties (VObj props) ks = Normal (VObj picked) /\
    omit exotic_properties (VObj props) ks = Normal (VObj omitted) /\
    forall key : string,
      if existsb (String.eqb key) ks
      then lookup_prop key picked = lookup_prop key props /\ lookup_prop key omitted = None
      else lookup_prop key picked = None /\ lookup_prop key omitted = lookup_prop key props.
Proof.
  intros Hnd Hnp Hks Hproto. eexists _, _.
  split; [now apply pick_own_properties|].
  split; [now apply omit_own_properties|].
  intros key. rewrite lookup_prop_picked.
  rewrite (lookup_prop_filter (fun k => negb (existsb (String.eqb k) ks))).
  now destruct (existsb (String.eqb key) ks).
Qed.

Lemma pick_omit_partition_witness :
  exists picked omitted : list (string * value),
    pick (fun _ => []) (VObj [("a", num 1); ("b", num 2); ("c", num 3)]) ["a"; "c"; "z"]
      = Normal (VObj picked) /\
    omit (fun _ => []) (VObj [("a", num 1); ("b", num 2); ("c", num 3)]) ["a"; "c"; "z"]
      = Normal (VObj omitted) /\
    forall key : string,
      if existsb (String.eqb key) ["a"; "c"; "z"]
      then lookup_prop key picked
           = lookup_prop key [("a", num 1); ("b", num 2); ("c", num 3)] /\
           lookup_prop key omitted = None
      else lookup_prop key picked = None /\
           lookup_prop key omitted
           = lookup_prop key [("a", num 1); ("b", num 2); ("c", num 3)].
Proof.
  apply (pick_omit_partition (fun _ => []) [("a", num 1); ("b", num 2); ("c", num 3)]
           ["a"; "c"; "z"]).
  - unfold distinct_keys. apply (bool_decide_unpack _). vm_compute. exact I.
  - unfold no_proto_key. cbn. intros [H|[H|[H|[]]]]; discriminate H.
  - apply (bool_decide_unpack _). vm_compute. exact I.
  - intros k [<-|[<-|[<-|[]]]]; reflexivity.
Defined.

(** X16: omitting keys in two steps is omitting them in one. *)
Theorem omit_omit
    (exotic_properties : value -> list (string * value))
    (props : list (string * value)) (ks1 ks2 : list string) :
  distinct_keys props -> no_proto_key props ->
  (r ← omit exotic_properties (VObj props) ks1; omit exotic_properties r ks2)
  = omit exotic_properties (VObj props) (ks1 ++ ks2).
Proof.
  intros Hnd Hnp.
  rewrite (omit_own_properties _ props ks1 Hnd Hnp).
  rewrite (omit_own_properties _ props (ks1 ++ ks2) Hnd Hnp).
  cbn [mbind outcome_bind].
  destruct (filter_own_keys (fun kv => negb (existsb (String.eqb (fst kv)) ks1)) props Hnd Hnp)
    as [Hnd' Hnp'].
  rewrite (omit_own_properties _ _ ks2 Hnd' Hnp'). do 2 f_equal.
  clear. induction props as [|[k v] props IH]; [reflexivity|].
  cbn [List.filter fst]. rewrite existsb_app.
  destruct (existsb (String.eqb k) ks1); cbn [negb orb List.filter fst]; [exact IH|].
  destruct (existsb (String.eqb k) ks2); cbn [negb]; [exact IH | now rewrite IH].
Qed.

Lemma omit_omit_witness :
  (r ← omit (fun _ => []) (VObj [("a", num 1); ("b", num 2); ("c", num 3)]) ["a"];
   omit (fun _ => []) r ["c"])
  = omit (fun _ => []) (VObj [("a", num 1); ("b", num 2); ("c", num 3)]) (["a"] ++ ["c"]).
Proof.
  apply (omit_omit (fun _ => []) [("a", num 1); ("b", num 2); ("c", num 3)] ["a"] ["c"]).
  - unfold distinct_keys. apply (bool_decide_unpack _). vm_compute. exact I.
  - unfold no_proto_key. cbn. intros [H|[H|[H|[]]]]; discriminate H.
Defined.

(** ** [deepClone], cloned again *)

Lemma update_prop_keys (props : list (string * value)) (key : string) (v : value) (k : string) :
  In k (map fst (update_prop props key v)) <-> In k (map fst props) \/ k = key.
Proof.
  induction props as [|[k' w] props IH]; cbn.
  - intuition.
  - destruct (String.eqb_spec k' key) as [->|Hne]; cbn; [intuition|].
    rewrite IH. intuition.
Qed.

Lemma update_prop_distinct (props : list (string * value)) (key : string) (v : value) :
  distinct_keys props -> distinct_keys (update_prop props key v).
Proof.
  unfold distinct_keys. induction props as [|[k' w] props IH]; intros Hnd; cbn.
  - apply NoDup_singleton.
  - cbn in Hnd. apply NoDup_cons in Hnd as [Hk Hnd].
    destruct (String.eqb_spec k' key) as [->|Hne]; cbn.
    + apply NoDup_cons. now split.
    + apply NoDup_cons. split; [|now apply IH].
      intros Hin%list_elem_of_In%update_prop_keys.
      destruct Hin as [Hin| ->]; [|now destruct Hne].
      apply Hk. now apply list_elem_of_In.
Qed.

Lemma update_prop_values (P : value -> Prop) (props : list (string * value))
    (key : string) (v : value) :
  Forall (fun kv => P (snd kv)) props -> P v ->
  Forall (fun kv => P (snd kv)) (update_prop props key v).
Proof.
  induction 1 as [|[k' w] props Hw Hprops IH]; intros Hv; cbn.
  - now repeat constructor.
  - destruct (k' =? key); constructor; auto.
Qed.

Lemma obj_set_plain (props : list (string * value)) (key : string) (v : value) :
  plain_data (VObj props) -> plain_data v -> plain_data (VObj (obj_set props key v)).
Proof.
  intros Hprops Hv. unfold obj_set.
  destruct (String.eqb_spec key "__proto__") as [->|Hkey]; [assumption|].
  inversion Hprops as [| | | | | | | |props' Hnd Hnp Hvals]; subst.
  constructor.
  - now apply update_prop_distinct.
  - intros Hin%update_prop_keys. destruct Hin as [Hin|Heq]; [now apply Hnp | now destruct Hkey].
  - now apply update_prop_values.
Qed.

(** X17: for a value whose objects may own [__proto__] keys, as long as
    these hold values that the setter of [__proto__] ignores (neither an
    object nor [null]): its clone is plain data, and cloning the clone
    returns the clone. *)
Theorem deepClone_idempotent (x : value) :
  proto_keys_inert x ->
  plain_data (deepClone x) /\ deepClone (deepClone x) = deepClone x.
Proof.
  intros _.
  assert (Hplain : plain_data (deepClone x)).
  { induction x as [| |b|n|s|f|t|items IH|props IH] using value_ind';
      try (now cbn; constructor).
    - cbn [deepClone]. constructor.
      induction IH as [|y items Hy _ IHitems]; cbn [map]; constructor; assumption.
    - cbn [deepClone].
      enough (H : forall acc, plain_data (VObj acc) ->
                 plain_data (VObj (fold_left
                   (fun cloned kv => obj_set cloned (fst kv) (deepClone (snd kv))) props acc))).
      { apply H. constructor; [constructor | easy | constructor]. }
      induction IH as [|kv props Hkv _ IHprops]; intros acc Hacc; [exact Hacc|].
      cbn [fold_left]. apply IHprops. now apply obj_set_plain. }
  split; [assumption | now apply deepClone_plain_data].
Qed.

Lemma deepClone_idempotent_witness :
  plain_data (deepClone (VObj [("__proto__", num 1); ("a", VArr [VNull; VObj [("__proto__", VStr "p")]])])) /\
  deepClone (deepClone (VObj [("__proto__", num 1); ("a", VArr [VNull; VObj [("__proto__", VStr "p")]])]))
  = deepClone (VObj [("__proto__", num 1); ("a", VArr [VNull; VObj [("__proto__", VStr "p")]])]).
Proof.
  apply (deepClone_idempotent
           (VObj [("__proto__", num 1); ("a", VArr [VNull; VObj [("__proto__", VStr "p")]])])).
  repeat first
    [ apply inert_obj | apply inert_arr | apply inert_num | apply inert_str | apply inert_null
    | apply List.Forall_cons | apply List.Forall_nil
    | (split; [|cbn; intros _; reflexivity])
    | (split; [|cbn; intros Hk; discriminate Hk]) ].
Defined.

(** X18: a value in which no object owns a key named [__proto__] (and no
    object has a key twice) is cloned faithfully: the clone is the same
    tree. *)
Theorem deepClone_round_trip (x : value) :
  plain_data x -> deepClone x = x.
Proof. apply deepClone_plain_data. Qed.

Lemma deepClone_round_trip_witness :
  deepClone (VObj [("a", num 1); ("b", VObj [("c", VDate Num.one); ("d", VArr [num 3; VNull])])])
  = VObj [("a", num 1); ("b", VObj [("c", VDate Num.one); ("d", VArr [num 3; VNull])])].
Proof.
  apply (deepClone_round_trip
           (VObj [("a", num 1); ("b", VObj [("c", VDate Num.one); ("d", VArr [num 3; VNull])])])).
  repeat first
    [ apply plain_obj | apply plain_arr | apply plain_num | apply plain_date | apply plain_null
    | apply List.Forall_cons | apply List.Forall_nil
    | (apply (bool_decide_unpack _); vm_compute; exact I)
    | (unfold no_proto_key; cbn; intuition discriminate) ].
Defined.

(** ** [curry], arguments to spare *)

(** X19: the test is [args.length >= arity]: as soon as the arguments gathered
    reach the arity, [fn] is called with all of them, those beyond the
    arity included.  So for groups of arguments of which all but the last
    stay below the arity and all together reach it, the chain of calls
    returns what [fn] returns for all the arguments. *)
Theorem curry_forwards_extra_arguments (fn : js_function)
    (groups : list (list value)) (final : list value) :
  (length (concat groups) < fn_length fn)%nat ->
  (fn_length fn <= length (concat groups ++ final))%nat ->
  call_chain fn (curry fn) (groups ++ [final])
  = Some (Result (fn_apply fn (concat groups ++ final))).
Proof.
  intros Hbelow Hreach. unfold curry.
  enough (H : forall acc,
             (length (acc ++ concat groups) < fn_length fn)%nat ->
             (fn_length fn <= length ((acc ++ concat groups) ++ final))%nat ->
             call_chain fn (Waiting acc) (groups ++ [final])
             = Some (Result (fn_apply fn ((acc ++ concat groups) ++ final))))
    by (apply (H [] Hbelow Hreach)).
  clear Hbelow Hreach. induction groups as [|g groups IH]; intros acc Hbelow Hreach.
  - cbn [concat app call_chain call mbind option_bind] in *.
    rewrite app_nil_r in *. unfold curried_call.
    now rewrite (proj2 (Nat.leb_le _ _)) by assumption.
  - cbn [concat app call_chain call mbind option_bind] in *.
    rewrite app_assoc in Hbelow, Hreach |- *.
    unfold curried_call at 1.
    rewrite (proj2 (Nat.leb_gt _ _)) by (rewrite length_app in Hbelow; lia).
    now apply IH.
Qed.

Lemma curry_forwards_extra_arguments_witness :
  let fn := {| fn_length := 2; fn_apply := fun args => VArr args |} in
  call_chain fn (curry fn) ([[num 1]] ++ [[num 2; num 3; num 4]])
  = Some (Result (fn_apply fn (concat [[num 1]] ++ [num 2; num 3; num 4]))).
Proof.
  intros fn.
  apply (curry_forwards_extra_arguments fn [[num 1]] [num 2; num 3; num 4]); cbn; lia.
Defined.

(** Once [fn] has been called the chain is over: what a further call is
    made on is the result of [fn], no function of [curry]. *)
Example curry_call_after_result :
  let fn := {| fn_length := 2; fn_apply := fun args => VArr args |} in
  call_chain fn (curry fn) [[num 1]; [num 2]; [num 3]] = None.
Proof. reflexivity. Qed.

(** ** [memoize], a wrapper that cannot be told from [fn] *)

Section MemoizeTransparent.

Variable Number_toString : Num.number -> string.
Variable Date_toISOString : Num.number -> string.
Variable fn : list value -> value.

Local Abbreviation key := (cache_key Number_toString Date_toISOString).
Local Abbreviation run := (memo_run Number_toString Date_toISOString fn).

Lemma Forall2_eq_map {A B : Type} (f : A -> B) (l : list A) (k : list B) :
  Forall2 (fun x y => y = f x) l k -> k = map f l.
Proof. induction 1 as [|x y l k -> _ IH]; cbn; [reflexivity | now rewrite IH]. Qed.

Lemma Forall2_with_In {A B : Type} (P : A -> B -> Prop) (l : list A) (k : list B) :
  Forall2 P l k -> Forall2 (fun x y => In x l /\ P x y) l k.
Proof.
  induction 1 as [|x y l k H _ IH]; constructor.
  - split; [now left | exact H].
  - eapply Forall2_impl; [exact IH|]. intros a b [Ha Hb]. split; [now right | exact Hb].
Qed.

(** X20: over a sequence of calls in which no argument holds an object with
    a [toJSON] method and no two different argument lists have the same
    key, the wrapper returns at every call what [fn] returns for the
    arguments of that call; [fn] is invoked with every argument list of
    the sequence, and with none twice. *)
Theorem memoize_transparent (trace : list (list value)) :
  Forall (Forall no_toJSON) trace ->
  (forall b c, In b trace -> In c trace -> key b = key c -> b = c) ->
  fst (run memo_new trace) = map fn trace /\
  NoDup (calls (snd (run memo_new trace))) /\
  (forall c, In c (calls (snd (run memo_new trace))) <-> In c trace).
Proof.
  intros _ Hkey.
  destruct (memo_run_inv Number_toString Date_toISOString fn trace memo_new
              (memo_inv_new Number_toString Date_toISOString fn))
    as ([Hnd _] & Hall & Hnew & _).
  assert (Hsub : forall c, In c (calls (snd (run memo_new trace))) -> In c trace).
  { intros c Hc. now destruct (Hnew c Hc) as [[]|H]. }
  assert (Hall' : Forall2 (fun args r => In args trace /\
                     exists c, In c (calls (snd (run memo_new trace))) /\
                               key c = key args /\ r = fn c)
                    trace (fst (run memo_new trace))).
  { now apply Forall2_with_In. }
  split; [|split].
  - apply Forall2_eq_map. eapply Forall2_impl; [exact Hall'|].
    intros args r (Hin & c & Hc & Hkc & ->). cbn beta.
    now rewrite (Hkey c args (Hsub c Hc) Hin Hkc).
  - eapply NoDup_fmap_1. exact Hnd.
  - intros c. split; [apply Hsub|]. intros Hin.
    destruct (Forall2_In_l _ _ _ c Hall Hin) as (r & _ & c' & Hc' & Hkc & _).
    now rewrite <- (Hkey c' c (Hsub c' Hc') Hin Hkc).
Qed.

End MemoizeTransparent.

Lemma memoize_transparent_witness :
  let fn := fun args : list value => VArr args in
  let trace := [[VStr "x"; VNull]; [VBool true]; [VStr "x"; VNull]] in
  fst (memo_run (fun _ => "0") (fun _ => "0") fn memo_new trace) = map fn trace /\
  NoDup (calls (snd (memo_run (fun _ => "0") (fun _ => "0") fn memo_new trace))) /\
  (forall c, In c (calls (snd (memo_run (fun _ => "0") (fun _ => "0") fn memo_new trace)))
             <-> In c trace).
Proof.
  intros fn trace.
  apply (memoize_transparent (fun _ => "0") (fun _ => "0") fn trace).
  - repeat constructor.
  - intros b c [<-|[<-|[<-|[]]]] [<-|[<-|[<-|[]]]]; try reflexivity; vm_compute; discriminate.
Defined.

(** ** [keys], [pick] and [omit] together *)

Lemma filter_listed_keys (l : list (string * value)) (ks : list string) :
  (forall kv, In kv l -> In (fst kv) ks) ->
  List.filter (fun kv => negb (existsb (String.eqb (fst kv)) ks)) l = [].
Proof.
  induction l as [|kv l IH]; intros Hall; [reflexivity|].
  cbn [List.filter].
  assert (Hex : existsb (String.eqb (fst kv)) ks = true).
  { apply existsb_exists. exists (fst kv). split; [apply Hall; now left | apply String.eqb_refl]. }
  rewrite Hex. cbn [negb]. apply IH. intros kv' Hin. apply Hall. now right.
Qed.

(** X21: for an object with distinct keys none of which is [__proto__]: picking
    all the keys that [keys] lists gives the object back, also when an own
    key has the name of a member of [Object.prototype], and omitting them
    all leaves the empty object. *)
Theorem pick_omit_all_keys
    (exotic_properties : value -> list (string * value))
    (props : list (string * value)) :
  distinct_keys props -> no_proto_key props ->
  exists ks : list string,
    keys (VObj props) = Normal (VArr (map VStr ks)) /\
    pick exotic_properties (VObj props) ks = Normal (VObj props) /\
    omit exotic_properties (VObj props) ks = Normal (VObj []).
Proof.
  intros Hnd Hnp. exists (map fst props). split; [reflexivity|]. split.
  - unfold pick. cbn [is_null typeof negb orb].
    change ("object" =? "object") with true. cbn [negb].
    set (step := fun (result : list (string * value)) (key : string) => _).
    enough (H : forall todo seen,
               props = seen ++ todo ->
               foldM step (map fst todo) seen = Normal (seen ++ todo)).
    { now rewrite (H props []). }
    induction todo as [|[k v] todo IH]; intros seen Hsplit.
    + cbn. now rewrite app_nil_r.
    + assert (Hin : In (k, v) props) by (rewrite Hsplit; apply in_or_app; right; now left).
      assert (Hfresh : ~ In k (map fst seen)).
      { intros Hk. unfold distinct_keys in Hnd. rewrite Hsplit, map_app in Hnd.
        apply NoDup_app in Hnd as (_ & Hdisj & _).
        apply (Hdisj k); [now apply list_elem_of_In|]. cbn. now left. }
      assert (Hkey : k <> "__proto__").
      { intros ->. apply Hnp. apply in_map_iff. now exists ("__proto__", v). }
      assert (Hlook : lookup_prop k (props ++ Object_prototype) = Some v)
        by now apply lookup_prop_own.
      assert (Hstep : step seen k = Normal (seen ++ [(k, v)])).
      { subst step. cbn beta. unfold HasProperty, Get, all_properties.
        unfold mbind, outcome_bind.
        rewrite (proj2 (lookup_prop_has_key k (props ++ Object_prototype))) by eauto.
        rewrite Hlook. cbn [default]. now rewrite obj_set_fresh. }
      change (foldM step (map fst ((k, v) :: todo)) seen)
        with (step seen k ≫= foldM step (map fst todo)).
      rewrite Hstep. unfold mbind, outcome_bind.
      rewrite IH by now rewrite <- app_assoc.
      now rewrite <- app_assoc.
  - rewrite omit_own_properties by assumption. do 2 f_equal.
    apply filter_listed_keys. intros kv Hin. now apply in_map.
Qed.

Lemma pick_omit_all_keys_witness :
  exists ks : list string,
    keys (VObj [("toString", num 1); ("b", VNull)]) = Normal (VArr (map VStr ks)) /\
    pick (fun _ => []) (VObj [("toString", num 1); ("b", VNull)]) ks
    = Normal (VObj [("toString", num 1); ("b", VNull)]) /\
    omit (fun _ => []) (VObj [("toString", num 1); ("b", VNull)]) ks = Normal (VObj []).
Proof.
  apply (pick_omit_all_keys (fun _ => []) [("toString", num 1); ("b", VNull)]).
  - apply (bool_decide_unpack _). vm_compute. exact I.
  - unfold no_proto_key. cbn. intuition discriminate.
Defined.

(** ** [clamp] at the edges *)

Module ClampEdges.
Import Num ClampProps.

Lemma min_step_NaN (x y : number) :
  is_NaN (min_step x y) = is_NaN x || is_NaN y.
Proof.
  destruct (is_NaN x) eqn:Hx; [now unfold min_step; rewrite Hx|].
  destruct (is_NaN y) eqn:Hy; [now unfold min_step; rewrite Hx, Hy|].
  now destruct (min_step_spec x y Hx Hy) as [[-> _]|[-> _]].
Qed.

(** The order of [spec_float] is transitive. *)
Ltac compare_cases :=
  repeat match goal with
    | |- context [(?a ?= ?b)%Z] => destruct (Z.compare_spec a b); try subst b
    | |- context [Pos.compare_cont Eq ?a ?b] =>
        change (Pos.compare_cont Eq a b) with (Pos.compare a b);
        destruct (Pos.compare_spec a b); try subst b
    end.

Lemma lt_le_trans (x y z : number) :
  lt x y = true -> le y z = true -> lt x z = true.
Proof.
  unfold lt, le, SFltb, SFleb.
  destruct x as [sx|sx| |sx mx ex], y as [sy|sy| |sy my ey], z as [sz|sz| |sz mz ez];
    try destruct sx; try destruct sy; try destruct sz; cbn; try easy.
  all: compare_cases; cbn; try easy; lia.
Qed.

Lemma max_step_NaN (x y : number) :
  is_NaN (max_step x y) = is_NaN x || is_NaN y.
Proof.
  destruct (is_NaN x) eqn:Hx; [now unfold max_step; rewrite Hx|].
  destruct (is_NaN y) eqn:Hy; [now unfold max_step; rewrite Hx, Hy|].
  now destruct (max_step_spec x y Hx Hy) as [[-> _]|[-> _]].
Qed.

Lemma lt_not_NaN (x y : number) :
  lt x y = true -> is_NaN x = false /\ is_NaN y = false.
Proof. now destruct x, y. Qed.

Lemma min_step_lt (x y : number) : lt y x = true -> min_step x y = y.
Proof.
  intros Hlt. destruct (lt_not_NaN _ _ Hlt) as [Hy Hx].
  unfold min_step. rewrite Hx, Hy, Hlt. cbn [orb].
  destruct (is_neg_zero y && is_pos_zero x) eqn:Hz; [|reflexivity].
  apply andb_prop in Hz as [Hnz _]. now destruct y as [[]| | |].
Qed.

(** X22: the result is NaN exactly when one of the three arguments is: a NaN
    bound spoils the result as a NaN [num] does. *)
Theorem clamp_NaN_iff (num lower upper : number) :
  is_NaN (clamp num lower upper) = is_NaN num || is_NaN lower || is_NaN upper.
Proof.
  unfold clamp. rewrite Math_max_pair, Math_min_pair.
  now rewrite min_step_NaN, max_step_NaN.
Qed.

(** X23: with the bounds crossed ([upper < lower]) nothing is checked or
    swapped: [Math.min] has the last word, and the upper bound is returned
    for every [num] that is not NaN. *)
Theorem clamp_crossed_bounds (num lower upper : number) :
  is_NaN num = false ->
  lt upper lower = true ->
  clamp num lower upper = upper.
Proof.
  intros Hn Hlt. destruct (lt_not_NaN _ _ Hlt) as [Hu Hl].
  unfold clamp. rewrite Math_max_pair, Math_min_pair.
  apply min_step_lt.
  destruct (max_step_spec num lower Hn Hl) as [[-> _]|[-> Hle]]; [assumption|].
  now apply lt_le_trans with lower.
Qed.

Lemma clamp_crossed_bounds_witness :
  clamp (number_of_nat 3) one pos_zero = pos_zero.
Proof. apply (clamp_crossed_bounds (number_of_nat 3) one pos_zero); reflexivity. Defined.

Lemma max_step_absorb (x y : number) : max_step (max_step x y) y = max_step x y.
Proof.
  destruct (is_NaN x) eqn:Hx; [now unfold max_step; rewrite Hx|].
  destruct (is_NaN y) eqn:Hy.
  { unfold max_step. rewrite Hx, Hy. now rewrite orb_true_r. }
  destruct (max_step_spec x y Hx Hy) as [[E _]|[E _]]; rewrite E.
  - unfold max_step. rewrite Hy. cbn [orb].
    unfold lt, SFltb. rewrite SFcompare_refl by assumption.
    now destruct y as [[]| | |].
  - exact E.
Qed.

(** X24: clamping a clamped number again changes nothing, for all doubles and
    all bounds: NaN, infinities, zeros of either sign and crossed bounds
    included. *)
Theorem clamp_idempotent (num lower upper : number) :
  clamp (clamp num lower upper) lower upper = clamp num lower upper.
Proof.
  unfold clamp. rewrite !Math_max_pair, !Math_min_pair.
  set (m := max_step num lower).
  destruct (is_NaN m) eqn:Hm.
  { destruct m; try discriminate. reflexivity. }
  destruct (is_NaN upper) eqn:Hu.
  { destruct upper; try discriminate.
    assert (E : forall a, min_step a S754_nan = NaN).
    { intros a. unfold min_step. now rewrite orb_true_r. }
    rewrite !E. reflexivity. }
  destruct (min_step_spec m upper Hm Hu) as [[E Hle]|[E Hle]]; rewrite E.
  - (* the upper bound was returned *)
    assert (Hl : is_NaN lower = false).
    { subst m. rewrite max_step_NaN in Hm. now apply orb_false_elim in Hm. }
    destruct (max_step_spec upper lower Hu Hl) as [[E' Hle']|[E' Hle']]; rewrite E'.
    + unfold min_step. rewrite Hl, Hu. cbn [orb].
      destruct (is_neg_zero upper && is_pos_zero lower) eqn:Hz.
      * apply andb_prop in Hz as [Hz _]. now destruct upper as [[]| | |].
      * destruct (lt upper lower) eqn:Hlt; [reflexivity|].
        destruct (le_le_same _ _ Hle' (not_lt_le _ _ Hu Hl Hlt)) as [->|[Hzu Hzl]];
          [reflexivity|].
        (* two zeros; upper = +0 with lower = -0 is excluded by E' *)
        destruct upper as [[]| | |], lower as [[]| | |]; try discriminate; reflexivity.
    + unfold min_step. rewrite Hu. cbn [orb].
      unfold lt, SFltb. rewrite SFcompare_refl by assumption.
      now destruct upper as [[]| | |].
  - subst m. rewrite max_step_absorb. exact E.
Qed.

End ClampEdges.

(** ** [capitalize], applied again *)

Lemma substring_all (s : string) : String.substring 0 (String.length s) s = s.
Proof. induction s as [|c s IH]; cbn; [reflexivity | now rewrite IH]. Qed.

Lemma slice_from_1 (c : ascii) (rest : string) :
  String_slice (String c rest) 1 (Z.of_nat (String.length (String c rest))) = rest.
Proof.
  unfold String_slice, relative_index. cbn [String.length].
  rewrite (proj2 (Z.ltb_ge (Z.of_nat (S (String.length rest))) 0)) by lia.
  change (1 <? 0)%Z with false. cbn match.
  rewrite Z.min_id, Z.min_l by lia.
  replace (Z.to_nat (Z.of_nat (S (String.length rest)) - 1)) with (String.length rest) by lia.
  change (Z.to_nat 1) with 1%nat. cbn [String.substring].
  apply substring_all.
Qed.

Lemma capitalize_cons (c : ascii) (rest : string) :
  capitalize (VStr (String c rest))
  = Normal (VStr (String (char_toUpperCase c) (toLowerCase rest))).
Proof.
  unfold capitalize. cbn [typeof ToBoolean this_string].
  change ("string" =? "string") with true.
  change (String c rest =? "") with false. cbn [negb orb].
  unfold mbind, outcome_bind. rewrite slice_from_1.
  replace (String.substring 0 1 (String c rest)) with (String c EmptyString)
    by (cbn; now destruct rest).
  reflexivity.
Qed.

Lemma char_toUpperCase_facts (c : ascii) :
  char_toUpperCase (char_toUpperCase c) = char_toUpperCase c /\
  (upper_case_in_range c = true -> upper_case_in_range (char_toUpperCase c) = true).
Proof. destruct c as [[] [] [] [] [] [] [] []]; split; reflexivity || discriminate. Qed.

Lemma toLowerCase_idempotent (s : string) :
  toLowerCase (toLowerCase s) = toLowerCase s.
Proof.
  unfold toLowerCase. rewrite chars_of_chars, map_map. f_equal.
  apply map_ext. intros c. apply char_toLowerCase_facts.
Qed.

Lemma toLowerCase_length (s : string) :
  String.length (toLowerCase s) = String.length s.
Proof. induction s as [|c s IH]; cbn; [reflexivity | now f_equal]. Qed.

(** X25: for a string whose first code unit has its upper case in the range
    modelled: the result has the length of the string, its first unit is
    again such a unit, and [capitalize] returns it unchanged. *)
Theorem capitalize_idempotent (s : string) :
  first_unit_upper_in_range s ->
  exists r : string,
    capitalize (VStr s) = Normal (VStr r) /\
    String.length r = String.length s /\
    first_unit_upper_in_range r /\
    capitalize (VStr r) = Normal (VStr r).
Proof.
  destruct s as [|c rest]; intros Hc.
  - exists "". now repeat split.
  - exists (String (char_toUpperCase c) (toLowerCase rest)).
    rewrite !capitalize_cons. split; [reflexivity|]. split; [|split].
    + cbn [String.length]. now rewrite toLowerCase_length.
    + now apply char_toUpperCase_facts.
    + rewrite toLowerCase_idempotent.
      now rewrite (proj1 (char_toUpperCase_facts c)).
Qed.

Lemma capitalize_idempotent_witness :
  exists r : string,
    capitalize (VStr "hELLO wORLD") = Normal (VStr r) /\
    String.length r = String.length "hELLO wORLD" /\
    first_unit_upper_in_range r /\
    capitalize (VStr r) = Normal (VStr r).
Proof. apply (capitalize_idempotent "hELLO wORLD"). reflexivity. Defined.

(** ** [keys] and [values] of an array *)

Lemma imap_snd {A : Type} (f : nat -> string) (l : list A) :
  map snd (imap (fun i x => (f i, x)) l) = l.
Proof.
  revert f. induction l as [|x l IH]; intros f; [reflexivity|].
  cbn. f_equal. apply (IH (f ∘ S)).
Qed.

Lemma imap_fst {A : Type} (f : nat -> string) (l : list A) :
  map fst (imap (fun i x => (f i, x)) l) = map f (seq 0 (length l)).
Proof.
  revert f. induction l as [|x l IH]; intros f; [reflexivity|].
  cbn. f_equal. rewrite <- seq_shift, map_map. apply (IH (f ∘ S)).
Qed.

(** X26: an array is an object to the guard ([typeof] gives ["object"]), so it
    is not answered with the default: [values] returns its elements, and
    [keys] its indices as strings. *)
Theorem keys_values_of_array (items : list value) :
  values (VArr items) = Normal (VArr items) /\
  keys (VArr items) = Normal (VArr (map (fun i => VStr (index_key i)) (seq 0 (length items)))).
Proof.
  unfold values, keys. cbn [is_null typeof negb orb].
  change ("object" =? "object") with true. cbn [negb].
  cbn [Object_values Object_keys own_enumerable]. unfold mbind, outcome_bind.
  rewrite imap_snd, imap_fst, map_map. now split.
Qed.
